(** * Watched-interval tracking of the [useVideoProgress] hook

    A shallow embedding of [src/hooks/useVideoProgress.ts] (with the record
    types of [src/services/api.ts]) and the properties of its interval
    merge, completion latch, event handlers, start-up reconciliation and
    persistence order.

    Numbers.  The hook computes on JavaScript numbers.  Video positions,
    durations and percentages are modelled as canonical rationals [Qc] with
    exact arithmetic: comparisons, [Math.max], [Math.min] and [Math.abs] are
    the mathematical ones, and rounding, [NaN] and the infinities are outside
    the model.  Wall-clock readings of [Date.now()] are integers ([Z],
    milliseconds).

    React.  A value held by [useState] is read by a handler as it was when
    the handler was created, which is its value when the handler starts;
    a setter shows in the state the handler returns.  A [useRef] cell is read
    and written in place.  Each handler is a function from the state at its
    start to the state at its end. *)

From Stdlib Require Import List Bool ZArith QArith Qcanon Lqa Lia.
From Stdlib Require String Ascii DecimalString.
From Stdlib Require Import Qround.
From Stdlib Require Import Permutation Sorted.
Import ListNotations.

Open Scope Qc_scope.

(** * Part I: the embedding *)

(** ** Numbers *)

Module Num.

Definition leb (x y : Qc) : bool := Qle_bool x y.
Definition ltb (x y : Qc) : bool := negb (Qle_bool y x).
Definition eqb (x y : Qc) : bool := Qeq_bool x y.

(** [Math.max], [Math.min], [Math.abs]. *)
Definition max (x y : Qc) : Qc := if leb x y then y else x.
Definition min (x y : Qc) : Qc := if leb x y then x else y.
Definition abs (x : Qc) : Qc := if leb 0 x then x else - x.

(** [!x] on a number: true exactly for zero. *)
Definition falsy (x : Qc) : bool := eqb x 0.

End Num.

(** ** Data model ([services/api.ts], [LocalStorageProgress]) *)

(** Field names are those of the source, except where two records of the
    source share one: the fields of [IProgress] carry the prefix [p_], and
    [isCompleted] of [LocalStorageProgress] is [isCompletedL]. *)

(** [IInterval]; the field [end] is written [end_]. *)
Record IInterval : Type := mkInterval { start : Qc; end_ : Qc }.

(** [IProgress], the record of the remote store.  It carries no completion
    field.  [lastWatchedAt] is kept as the integer that
    [new Date(lastWatchedAt).getTime()] gives. *)
Record IProgress : Type := mkProgress {
  p_intervals : list IInterval;
  p_lastPosition : Qc;
  p_totalWatched : Qc;
  p_lastWatchedAt : Z
}.

(** [LocalStorageProgress], the record kept in the local cache. *)
Record LocalStorageProgress : Type := mkLocal {
  lastPosition : Qc;
  totalWatched : Qc;
  intervals : list IInterval;
  timestamp : Z;
  isCompletedL : bool
}.

Definition PROGRESS_UPDATE_INTERVAL : Z := 5000.
Definition UI_UPDATE_INTERVAL : Z := 1000.
Definition MINIMUM_WATCH_TIME : Qc := Q2Qc 1.
Definition SKIP_THRESHOLD : Qc := Q2Qc 10.

(** The literals [0.1], [99.5] and [100] of [calculateProgress]. *)
Definition MERGE_TOLERANCE : Qc := Q2Qc (1 # 10).
Definition LATCH_THRESHOLD : Qc := Q2Qc (199 # 2).
Definition HUNDRED : Qc := Q2Qc 100.

(** Interval literals: [iv a b] is [{start: a, end: b}]. *)
Definition iv (a b : Q) : IInterval := mkInterval (Q2Qc a) (Q2Qc b).

(** ** The merge pass of [calculateProgress] *)

Module Merge.
Import Num.

(** The callback of [intervalsRef.current.filter]. *)
Definition isValid (duration : Qc) (interval : IInterval) : bool :=
  if leb (end_ interval) (start interval) then false
  else if leb duration (start interval) then false
  else if ltb (end_ interval - start interval) MINIMUM_WATCH_TIME then false
  else if ltb duration (end_ interval - start interval) then false
  else true.

Definition validIntervals (duration : Qc) (l : list IInterval) : list IInterval :=
  filter (isValid duration) l.

(** [validIntervals.sort((a, b) => a.start - b.start)].  [Array.prototype.sort]
    is stable, so its result is the one arrangement of the list that is
    ascending by [start] and keeps intervals of equal [start] in their order;
    it is computed here by insertion from the right. *)
Fixpoint insert (x : IInterval) (l : list IInterval) : list IInterval :=
  match l with
  | [] => [x]
  | y :: l' => if leb (start x) (start y) then x :: l else y :: insert x l'
  end.

Fixpoint sort (l : list IInterval) : list IInterval :=
  match l with
  | [] => []
  | x :: l' => insert x (sort l')
  end.

(** [clampedInterval]. *)
Definition clamp (duration : Qc) (interval : IInterval) : IInterval :=
  {| start := max 0 (start interval);
     end_ := min duration (end_ interval) |}.

(** One turn of the [for] loop.  [mergedRev] is [mergedIntervals] back to
    front, so that its head is [mergedIntervals[mergedIntervals.length - 1]]. *)
Definition step (duration : Qc) (mergedRev : list IInterval)
  (interval : IInterval) : list IInterval :=
  let clampedInterval := clamp duration interval in
  match mergedRev with
  | [] => [clampedInterval]
  | lastInterval :: rest =>
      if leb (start clampedInterval) (end_ lastInterval + MERGE_TOLERANCE)
      then {| start := start lastInterval;
              end_ := max (end_ lastInterval) (end_ clampedInterval) |} :: rest
      else clampedInterval :: lastInterval :: rest
  end.

Definition loop (duration : Qc) (sorted : list IInterval)
  (mergedRev : list IInterval) : list IInterval :=
  fold_left (step duration) sorted mergedRev.

(** [mergedIntervals] after the loop, for the raw list [l]. *)
Definition mergedIntervals (duration : Qc) (l : list IInterval) : list IInterval :=
  rev (loop duration (sort (validIntervals duration l)) []).

(** [mergedIntervals.reduce((total, i) => total + (i.end - i.start), 0)]. *)
Definition sumSpans (merged : list IInterval) : Qc :=
  fold_left (fun total interval => total + (end_ interval - start interval))
    merged 0.

Definition totalWatchedOf (duration : Qc) (l : list IInterval) : Qc :=
  sumSpans (mergedIntervals duration l).

(** [Math.min((totalWatched / duration) * 100, 100)]. *)
Definition percentageOf (duration : Qc) (l : list IInterval) : Qc :=
  min ((totalWatchedOf duration l / duration) * HUNDRED) HUNDRED.

(** Decidable equality of intervals and interval lists, to evaluate closed
    instances. *)
Definition interval_eqb (a b : IInterval) : bool :=
  eqb (start a) (start b) && eqb (end_ a) (end_ b).

Fixpoint intervals_eqb (l1 l2 : list IInterval) : bool :=
  match l1, l2 with
  | [], [] => true
  | a :: l1', b :: l2' => interval_eqb a b && intervals_eqb l1' l2'
  | _, _ => false
  end.

End Merge.

(** ** The state of the hook *)

(** Calls that leave the hook, in the order they are made. *)
Inductive Call : Type :=
| SetItem (data : LocalStorageProgress)
    (** [localStorage.setItem(getLocalStorageKey(userId, videoId), ...)] *)
| Get
    (** [getProgress(videoId, userId)] *)
| Post (interval : IInterval) (lastPosition : Qc)
    (** [updateProgress(videoId, userId, interval, lastPosition)] *)
| Emit (progress : IProgress).
    (** [emitProgressUpdate({videoId, userId, progress})] *)

(** The [useState] cells, the [useRef] cells, the item of the local cache
    under the key of this user and video, and the calls made so far. *)
Record State : Type := mkState {
  serverProgress : option IProgress;
  localProgress : Qc;
  isLoading : bool;
  error : option String.string;
  skippedAhead : bool;
  isInitialized : bool;
  isCompleted : bool;
  currentIntervalRef : option IInterval;
  lastUpdateTimeRef : Z;
  lastUIUpdateTimeRef : Z;
  isPlayingRef : bool;
  lastKnownPositionRef : Qc;
  intervalsRef : list IInterval;
  totalWatchedRef : Qc;
  wasFullyWatchedRef : bool;
  localStorage : option LocalStorageProgress;
  calls : list Call
}.

Module Set_.

Definition set_serverProgress (v : option IProgress) (st : State) : State :=
  mkState v (localProgress st) (isLoading st) (error st) (skippedAhead st)
    (isInitialized st) (isCompleted st) (currentIntervalRef st)
    (lastUpdateTimeRef st) (lastUIUpdateTimeRef st) (isPlayingRef st)
    (lastKnownPositionRef st) (intervalsRef st) (totalWatchedRef st)
    (wasFullyWatchedRef st) (localStorage st) (calls st).

Definition set_localProgress (v : Qc) (st : State) : State :=
  mkState (serverProgress st) v (isLoading st) (error st) (skippedAhead st)
    (isInitialized st) (isCompleted st) (currentIntervalRef st)
    (lastUpdateTimeRef st) (lastUIUpdateTimeRef st) (isPlayingRef st)
    (lastKnownPositionRef st) (intervalsRef st) (totalWatchedRef st)
    (wasFullyWatchedRef st) (localStorage st) (calls st).

Definition set_isLoading (v : bool) (st : State) : State :=
  mkState (serverProgress st) (localProgress st) v (error st) (skippedAhead
    st) (isInitialized st) (isCompleted st) (currentIntervalRef st)
    (lastUpdateTimeRef st) (lastUIUpdateTimeRef st) (isPlayingRef st)
    (lastKnownPositionRef st) (intervalsRef st) (totalWatchedRef st)
    (wasFullyWatchedRef st) (localStorage st) (calls st).

Definition set_error (v : option String.string) (st : State) : State :=
  mkState (serverProgress st) (localProgress st) (isLoading st) v
    (skippedAhead st) (isInitialized st) (isCompleted st)
    (currentIntervalRef st) (lastUpdateTimeRef st) (lastUIUpdateTimeRef st)
    (isPlayingRef st) (lastKnownPositionRef st) (intervalsRef st)
    (totalWatchedRef st) (wasFullyWatchedRef st) (localStorage st) (calls
    st).

Definition set_skippedAhead (v : bool) (st : State) : State :=
  mkState (serverProgress st) (localProgress st) (isLoading st) (error st) v
    (isInitialized st) (isCompleted st) (currentIntervalRef st)
    (lastUpdateTimeRef st) (lastUIUpdateTimeRef st) (isPlayingRef st)
    (lastKnownPositionRef st) (intervalsRef st) (totalWatchedRef st)
    (wasFullyWatchedRef st) (localStorage st) (calls st).

Definition set_isInitialized (v : bool) (st : State) : State :=
  mkState (serverProgress st) (localProgress st) (isLoading st) (error st)
    (skippedAhead st) v (isCompleted st) (currentIntervalRef st)
    (lastUpdateTimeRef st) (lastUIUpdateTimeRef st) (isPlayingRef st)
    (lastKnownPositionRef st) (intervalsRef st) (totalWatchedRef st)
    (wasFullyWatchedRef st) (localStorage st) (calls st).

Definition set_isCompleted (v : bool) (st : State) : State :=
  mkState (serverProgress st) (localProgress st) (isLoading st) (error st)
    (skippedAhead st) (isInitialized st) v (currentIntervalRef st)
    (lastUpdateTimeRef st) (lastUIUpdateTimeRef st) (isPlayingRef st)
    (lastKnownPositionRef st) (intervalsRef st) (totalWatchedRef st)
    (wasFullyWatchedRef st) (localStorage st) (calls st).

Definition set_currentIntervalRef (v : option IInterval) (st : State) : State :=
  mkState (serverProgress st) (localProgress st) (isLoading st) (error st)
    (skippedAhead st) (isInitialized st) (isCompleted st) v
    (lastUpdateTimeRef st) (lastUIUpdateTimeRef st) (isPlayingRef st)
    (lastKnownPositionRef st) (intervalsRef st) (totalWatchedRef st)
    (wasFullyWatchedRef st) (localStorage st) (calls st).

Definition set_lastUpdateTimeRef (v : Z) (st : State) : State :=
  mkState (serverProgress st) (localProgress st) (isLoading st) (error st)
    (skippedAhead st) (isInitialized st) (isCompleted st)
    (currentIntervalRef st) v (lastUIUpdateTimeRef st) (isPlayingRef st)
    (lastKnownPositionRef st) (intervalsRef st) (totalWatchedRef st)
    (wasFullyWatchedRef st) (localStorage st) (calls st).

Definition set_lastUIUpdateTimeRef (v : Z) (st : State) : State :=
  mkState (serverProgress st) (localProgress st) (isLoading st) (error st)
    (skippedAhead st) (isInitialized st) (isCompleted st)
    (currentIntervalRef st) (lastUpdateTimeRef st) v (isPlayingRef st)
    (lastKnownPositionRef st) (intervalsRef st) (totalWatchedRef st)
    (wasFullyWatchedRef st) (localStorage st) (calls st).

Definition set_isPlayingRef (v : bool) (st : State) : State :=
  mkState (serverProgress st) (localProgress st) (isLoading st) (error st)
    (skippedAhead st) (isInitialized st) (isCompleted st)
    (currentIntervalRef st) (lastUpdateTimeRef st) (lastUIUpdateTimeRef st)
    v (lastKnownPositionRef st) (intervalsRef st) (totalWatchedRef st)
    (wasFullyWatchedRef st) (localStorage st) (calls st).

Definition set_lastKnownPositionRef (v : Qc) (st : State) : State :=
  mkState (serverProgress st) (localProgress st) (isLoading st) (error st)
    (skippedAhead st) (isInitialized st) (isCompleted st)
    (currentIntervalRef st) (lastUpdateTimeRef st) (lastUIUpdateTimeRef st)
    (isPlayingRef st) v (intervalsRef st) (totalWatchedRef st)
    (wasFullyWatchedRef st) (localStorage st) (calls st).

Definition set_intervalsRef (v : list IInterval) (st : State) : State :=
  mkState (serverProgress st) (localProgress st) (isLoading st) (error st)
    (skippedAhead st) (isInitialized st) (isCompleted st)
    (currentIntervalRef st) (lastUpdateTimeRef st) (lastUIUpdateTimeRef st)
    (isPlayingRef st) (lastKnownPositionRef st) v (totalWatchedRef st)
    (wasFullyWatchedRef st) (localStorage st) (calls st).

Definition set_totalWatchedRef (v : Qc) (st : State) : State :=
  mkState (serverProgress st) (localProgress st) (isLoading st) (error st)
    (skippedAhead st) (isInitialized st) (isCompleted st)
    (currentIntervalRef st) (lastUpdateTimeRef st) (lastUIUpdateTimeRef st)
    (isPlayingRef st) (lastKnownPositionRef st) (intervalsRef st) v
    (wasFullyWatchedRef st) (localStorage st) (calls st).

Definition set_wasFullyWatchedRef (v : bool) (st : State) : State :=
  mkState (serverProgress st) (localProgress st) (isLoading st) (error st)
    (skippedAhead st) (isInitialized st) (isCompleted st)
    (currentIntervalRef st) (lastUpdateTimeRef st) (lastUIUpdateTimeRef st)
    (isPlayingRef st) (lastKnownPositionRef st) (intervalsRef st)
    (totalWatchedRef st) v (localStorage st) (calls st).

Definition set_localStorage (v : option LocalStorageProgress) (st : State) : State :=
  mkState (serverProgress st) (localProgress st) (isLoading st) (error st)
    (skippedAhead st) (isInitialized st) (isCompleted st)
    (currentIntervalRef st) (lastUpdateTimeRef st) (lastUIUpdateTimeRef st)
    (isPlayingRef st) (lastKnownPositionRef st) (intervalsRef st)
    (totalWatchedRef st) (wasFullyWatchedRef st) v (calls st).

Definition set_calls (v : list Call) (st : State) : State :=
  mkState (serverProgress st) (localProgress st) (isLoading st) (error st)
    (skippedAhead st) (isInitialized st) (isCompleted st)
    (currentIntervalRef st) (lastUpdateTimeRef st) (lastUIUpdateTimeRef st)
    (isPlayingRef st) (lastKnownPositionRef st) (intervalsRef st)
    (totalWatchedRef st) (wasFullyWatchedRef st) (localStorage st) v.

End Set_.
Import Set_.

(** The state of a freshly mounted hook with an empty cache; [now] is the
    reading of [Date.now()] at the first render. *)
Definition initialState (now : Z) : State :=
  {| serverProgress := None;
     localProgress := 0;
     isLoading := true;
     error := None;
     skippedAhead := false;
     isInitialized := false;
     isCompleted := false;
     currentIntervalRef := None;
     lastUpdateTimeRef := now;
     lastUIUpdateTimeRef := now;
     isPlayingRef := false;
     lastKnownPositionRef := 0;
     intervalsRef := [];
     totalWatchedRef := 0;
     wasFullyWatchedRef := false;
     localStorage := None;
     calls := [] |}.

(** The messages given to [setError]. *)
Module Msg.
Import String.
Definition loadServer : string := "Failed to load progress from server"%string.
Definition save : string := "Failed to save progress"%string.
End Msg.

(** ** The handlers of [useVideoProgress] *)

Module Hook.
Import Num.

(** [calculateProgress].  [duration] and [skippedAhead] are the values the
    callback closes over.  The result is the returned number and the state
    with the writes to [totalWatchedRef], [wasFullyWatchedRef] and
    [isCompleted]. *)
Definition calculateProgress (duration : Qc) (skippedAhead : bool)
  (st : State) : Qc * State :=
  if falsy duration then (0, st)
  else if wasFullyWatchedRef st then (HUNDRED, st)
  else
    let totalWatched := Merge.totalWatchedOf duration (intervalsRef st) in
    let st1 := set_totalWatchedRef totalWatched st in
    let percentage := min ((totalWatched / duration) * HUNDRED) HUNDRED in
    if leb LATCH_THRESHOLD percentage && negb skippedAhead
    then (HUNDRED, set_isCompleted true (set_wasFullyWatchedRef true st1))
    else (percentage, st1).

(** [saveToLocalStorage]; [now] is its reading of [Date.now()]. *)
Definition cacheRecord (now : Z) (st : State) : LocalStorageProgress :=
  {| lastPosition := lastKnownPositionRef st;
     totalWatched := totalWatchedRef st;
     intervals := intervalsRef st;
     timestamp := now;
     isCompletedL := wasFullyWatchedRef st |}.

Definition saveToLocalStorage (now : Z) (st : State) : State :=
  let data := cacheRecord now st in
  set_calls (calls st ++ [SetItem data]) (set_localStorage (Some data) st).

(** [resetProgress]. *)
Definition resetProgress (now : Z) (st : State) : State :=
  if wasFullyWatchedRef st then st
  else
    let st := set_intervalsRef [] st in
    let st := set_currentIntervalRef None st in
    let st := set_totalWatchedRef 0 st in
    let st := set_lastKnownPositionRef 0 st in
    let st := set_localProgress 0 st in
    let st := set_skippedAhead false st in
    saveToLocalStorage now st.

(** [handlePlay]. *)
Definition handlePlay (now : Z) (currentTime : Qc) (st : State) : State :=
  let st := set_isPlayingRef true st in
  let st :=
    if eqb currentTime 0 && ltb 0 (lastKnownPositionRef st)
       && negb (wasFullyWatchedRef st)
    then resetProgress now st else st in
  set_currentIntervalRef (Some (mkInterval currentTime currentTime)) st.

(** [handlePause]. *)
Definition handlePause (duration : Qc) (now : Z) (currentTime : Qc)
  (st : State) : State :=
  let skipped := skippedAhead st in
  let st := set_isPlayingRef false st in
  match currentIntervalRef st with
  | Some current =>
      let current := mkInterval (start current) currentTime in
      let st := set_currentIntervalRef (Some current) st in
      let st :=
        if leb MINIMUM_WATCH_TIME (end_ current - start current) then
          let st := set_intervalsRef (intervalsRef st ++ [current]) st in
          let (newProgress, st) := calculateProgress duration skipped st in
          let st := set_localProgress newProgress st in
          saveToLocalStorage now st
        else st in
      set_currentIntervalRef None st
  | None => st
  end.

(** [saveProgress] up to its [await]: the request is sent. *)
Definition saveProgress (currentTime : Qc) (st : State) : State :=
  match currentIntervalRef st with
  | None => st
  | Some current => set_calls (calls st ++ [Post current currentTime]) st
  end.

(** [saveProgress] after its [await], when the request succeeded with
    [response]: the rest of the [try] block.  The socket has been created by
    [initializeSocket] when the hook was mounted. *)
Definition saveProgress_resolved (now : Z) (response : IProgress)
  (st : State) : State :=
  let st := set_serverProgress (Some response) st in
  let st := set_error None st in
  let st := saveToLocalStorage now st in
  set_calls (calls st ++ [Emit response]) st.

(** [saveProgress] after its [await], when the request failed: the [catch]
    block. *)
Definition saveProgress_rejected (st : State) : State :=
  set_error (Some Msg.save) st.

(** The parts of [handleTimeUpdate], in the order of the source. *)

(** "Update current interval". *)
Definition updateCurrentInterval (currentTime : Qc) (st : State) : State :=
  match currentIntervalRef st with
  | Some current =>
      set_currentIntervalRef (Some (mkInterval (start current) currentTime)) st
  | None =>
      set_currentIntervalRef (Some (mkInterval currentTime currentTime)) st
  end.

(** "Check for skips". *)
Definition isSkip (currentTime : Qc) (st : State) : bool :=
  ltb SKIP_THRESHOLD (abs (currentTime - lastKnownPositionRef st)).

Definition checkForSkips (currentTime : Qc) (st : State) : State :=
  if isSkip currentTime st then
    let st :=
      match currentIntervalRef st with
      | Some current =>
          let st := set_intervalsRef (intervalsRef st ++ [current]) st in
          set_currentIntervalRef (Some (mkInterval currentTime currentTime)) st
      | None => st
      end in
    set_skippedAhead true st
  else st.

(** "Update UI more frequently". *)
Definition uiDue (now : Z) (st : State) : bool :=
  (UI_UPDATE_INTERVAL <=? now - lastUIUpdateTimeRef st)%Z.

Definition updateUI (duration : Qc) (skipped : bool) (now : Z)
  (st : State) : State :=
  let (newProgress, st) := calculateProgress duration skipped st in
  let st := set_localProgress newProgress st in
  set_lastUIUpdateTimeRef now st.

(** "Save to server less frequently". *)
Definition saveDue (now : Z) (st : State) : bool :=
  (PROGRESS_UPDATE_INTERVAL <=? now - lastUpdateTimeRef st)%Z.

Definition saveCurrentInterval (currentTime : Qc) (st : State) : State :=
  match currentIntervalRef st with
  | Some current =>
      if leb MINIMUM_WATCH_TIME (end_ current - start current) then
        let st := set_intervalsRef (intervalsRef st ++ [current]) st in
        set_currentIntervalRef (Some (mkInterval currentTime currentTime)) st
      else st
  | None => st
  end.

Definition saveToServer (duration : Qc) (skipped : bool) (now : Z)
  (currentTime : Qc) (st : State) : State :=
  let st := saveCurrentInterval currentTime st in
  let (newProgress, st) := calculateProgress duration skipped st in
  let st := set_localProgress newProgress st in
  let st := saveProgress currentTime st in
  set_lastUpdateTimeRef now st.

(** [handleTimeUpdate]; [now] is its reading of [Date.now()].  The two
    elapsed times are taken from the state at the start, and neither
    [lastUpdateTimeRef] nor [lastUIUpdateTimeRef] is written before it is
    compared. *)
Definition handleTimeUpdate (duration : Qc) (now : Z) (currentTime : Qc)
  (st : State) : State :=
  if negb (isPlayingRef st) || falsy duration then st
  else
    let skipped := skippedAhead st in
    let ui := uiDue now st in
    let save := saveDue now st in
    let st := updateCurrentInterval currentTime st in
    let st := checkForSkips currentTime st in
    let st := if ui then updateUI duration skipped now st else st in
    let st := if save then saveToServer duration skipped now currentTime st
              else st in
    set_lastKnownPositionRef currentTime st.

(** [loadProgress] up to the call of [getProgress]: the cache is read.  The
    item of the cache is taken to parse. *)
Definition loadProgress_local (duration : Qc) (st : State) : State :=
  let skipped := skippedAhead st in
  let st := set_isLoading true st in
  let st := set_isInitialized false st in
  let st :=
    match localStorage st with
    | Some parsed =>
        let st := set_lastKnownPositionRef (lastPosition parsed) st in
        let st := set_intervalsRef (intervals parsed) st in
        let st := set_wasFullyWatchedRef (isCompletedL parsed) st in
        let st := set_isCompleted (isCompletedL parsed) st in
        if isCompletedL parsed then set_localProgress HUNDRED st
        else
          let (calculatedProgress, st) := calculateProgress duration skipped st in
          set_localProgress calculatedProgress st
    | None => st
    end in
  set_calls (calls st ++ [Get]) st.

(** The [then] and [finally] callbacks of [getProgress]; [localData] and
    [skipped] are what [loadProgress] read when it started. *)
Definition useServerData (localData : option LocalStorageProgress)
  (serverData : IProgress) (st : State) : bool :=
  match localData with
  | None => true
  | Some parsed =>
      negb (wasFullyWatchedRef st)
      && (timestamp parsed <? p_lastWatchedAt serverData)%Z
  end.

Definition loadProgress_resolved (duration : Qc) (skipped : bool)
  (localData : option LocalStorageProgress) (serverData : IProgress)
  (st : State) : State :=
  let st := set_serverProgress (Some serverData) st in
  let st := set_error None st in
  let st :=
    if useServerData localData serverData st then
      let st := set_lastKnownPositionRef (p_lastPosition serverData) st in
      let st := set_intervalsRef (p_intervals serverData) st in
      let (calculatedProgress, st) := calculateProgress duration skipped st in
      set_localProgress calculatedProgress st
    else st in
  let st := set_isLoading false st in
  set_isInitialized true st.

(** The [catch] and [finally] callbacks of [getProgress]. *)
Definition loadProgress_rejected (st : State) : State :=
  let st := set_error (Some Msg.loadServer) st in
  let st := set_isLoading false st in
  set_isInitialized true st.

(** [loadProgress] with the answer of the remote store arriving before any
    other event: [remote] is the record it returns, [None] when the request
    fails. *)
Definition loadProgress (duration : Qc) (remote : option IProgress)
  (st : State) : State :=
  let skipped := skippedAhead st in
  let localData := localStorage st in
  let st := loadProgress_local duration st in
  match remote with
  | Some serverData =>
      loadProgress_resolved duration skipped localData serverData st
  | None => loadProgress_rejected st
  end.

(** What can happen to a mounted hook after start-up. *)
Inductive Event : Type :=
| Play (now : Z) (currentTime : Qc)
| Pause (now : Z) (currentTime : Qc)
| TimeUpdate (now : Z) (currentTime : Qc)
| Reset (now : Z)
| SaveResolved (now : Z) (response : IProgress)
| SaveRejected.

(** One event under the [duration] of the render it arrives in. *)
Definition handle (duration : Qc) (e : Event) (st : State) : State :=
  match e with
  | Play now t => handlePlay now t st
  | Pause now t => handlePause duration now t st
  | TimeUpdate now t => handleTimeUpdate duration now t st
  | Reset now => resetProgress now st
  | SaveResolved now response => saveProgress_resolved now response st
  | SaveRejected => saveProgress_rejected st
  end.

Definition run (events : list (Qc * Event)) (st : State) : State :=
  fold_left (fun st de => handle (fst de) (snd de) st) events st.

End Hook.

(** ** The socket of [services/api.ts] *)

Module Api.

(** What [emitProgressUpdate] is given. *)
Record ProgressUpdate : Type := mkUpdate {
  u_videoId : String.string;
  u_userId : String.string;
  u_progress : IProgress
}.

(** What reaches the socket library; a socket is named by the number of
    sockets that [io] had made before it. *)
Inductive Wire : Type :=
| Connect (socket : nat)        (** [io(WS_URL, ...)] *)
| Disconnect (socket : nat)     (** [socket.disconnect()] *)
| EmitOn (socket : nat) (data : ProgressUpdate).
                                (** [socket.emit('progress-update', data)] *)

(** The module variable [socket], the number of sockets made, and the
    traffic. *)
Record Net : Type := mkNet {
  socket : option nat;
  made : nat;
  wire : list Wire
}.

Definition initialNet : Net := {| socket := None; made := 0; wire := [] |}.

Definition initializeSocket (n : Net) : Net :=
  match socket n with
  | None =>
      {| socket := Some (made n);
         made := S (made n);
         wire := wire n ++ [Connect (made n)] |}
  | Some _ => n
  end.

Definition disconnectSocket (n : Net) : Net :=
  match socket n with
  | Some s =>
      {| socket := None; made := made n; wire := wire n ++ [Disconnect s] |}
  | None => n
  end.

Definition emitProgressUpdate (data : ProgressUpdate) (n : Net) : Net :=
  match socket n with
  | Some s =>
      {| socket := Some s; made := made n; wire := wire n ++ [EmitOn s data] |}
  | None => n
  end.

(** The calls of the module. *)
Inductive Op : Type :=
| Initialize
| DisconnectOp
| EmitOp (data : ProgressUpdate).

Definition apply (op : Op) (n : Net) : Net :=
  match op with
  | Initialize => initializeSocket n
  | DisconnectOp => disconnectSocket n
  | EmitOp data => emitProgressUpdate data n
  end.

Definition run (ops : list Op) (n : Net) : Net :=
  fold_left (fun n op => apply op n) ops n.

(** The sockets connected and not yet disconnected, latest first. *)
Fixpoint live (w : list Wire) (acc : list nat) : list nat :=
  match w with
  | [] => acc
  | Connect s :: w' => live w' (s :: acc)
  | Disconnect s :: w' => live w' (filter (fun x => negb (Nat.eqb x s)) acc)
  | EmitOn _ _ :: w' => live w' acc
  end.

(** Every emission goes to a socket that is connected at that point. *)
Fixpoint emitsOnLive (w : list Wire) (acc : list nat) : bool :=
  match w with
  | [] => true
  | Connect s :: w' => emitsOnLive w' (s :: acc)
  | Disconnect s :: w' =>
      emitsOnLive w' (filter (fun x => negb (Nat.eqb x s)) acc)
  | EmitOn s _ :: w' => existsb (Nat.eqb s) acc && emitsOnLive w' acc
  end.

(** The module variable names the one connected socket, if any, and every
    emission so far went to a connected socket. *)
Definition sound (n : Net) : Prop :=
  live (wire n) [] = match socket n with Some s => [s] | None => [] end
  /\ emitsOnLive (wire n) [] = true.

End Api.

(** ** The video list of [App.tsx] *)

(** The cell [isCompleted] of the hook, under a name that the fields of
    [Video] do not hide. *)
Definition hookIsCompleted (st : State) : bool := isCompleted st.

Module App.
Import String.

Record Video : Type := mkVideo {
  id : String.string;
  title : String.string;
  url : String.string;
  duration : String.string;
  progress : Qc;
  isCompleted : bool
}.

(** The item [{progress, isCompleted}] kept under
    [video-progress-${DEMO_USER_ID}-${videoId}]. *)
Record Saved : Type := mkSaved { s_progress : Qc; s_isCompleted : bool }.

(** The [useState] cells [videos] and [currentVideo], and the progress items
    of the local storage by video id.  The items are taken to parse. *)
Record AppState : Type := mkApp {
  videos : list Video;
  currentVideo : Video;
  stored : String.string -> option Saved
}.

(** [{ ...video, progress, isCompleted }]. *)
Definition withProgress (p : Qc) (c : bool) (video : Video) : Video :=
  {| id := id video;
     title := title video;
     url := url video;
     duration := duration video;
     progress := p;
     isCompleted := c |}.

(** The three writes that both branches of [handleVideoProgress] make. *)
Definition write (videoId : String.string) (p : Qc) (c : bool)
  (st : AppState) : AppState :=
  {| videos :=
       map (fun video =>
              if String.eqb (id video) videoId then withProgress p c video
              else video)
           (videos st);
     currentVideo :=
       if String.eqb (id (currentVideo st)) videoId
       then withProgress p c (currentVideo st)
       else currentVideo st;
     stored :=
       fun key =>
         if String.eqb key videoId then Some (mkSaved p c) else stored st key |}.

(** The test for "an artificial 100%". *)
Definition artificial (videoId : String.string) (p : Qc) (st : AppState) : bool :=
  match find (fun v => String.eqb (id v) videoId) (videos st) with
  | Some currentVideoData =>
      Num.eqb p HUNDRED
      && negb (isCompleted currentVideoData)
      && match stored st videoId with
         | None => true
         | Some storedProgress => Num.ltb (s_progress storedProgress) (Q2Qc 95)
         end
  | None => false
  end.

Definition handleVideoProgress (videoId : String.string) (p : Qc) (c : bool)
  (st : AppState) : AppState :=
  if artificial videoId p st then write videoId 0 false st
  else write videoId p c st.

(** [DEMO_VIDEOS], and the state of [App] when it is mounted: the first
    video is current and the stored progress of every video has been
    removed. *)
Definition demo (videoId videoTitle file : String.string) : Video :=
  {| id := videoId;
     title := videoTitle;
     url := String.append
              "https://storage.googleapis.com/gtv-videos-bucket/sample/"%string
              file;
     duration := "0:00"%string;
     progress := 0;
     isCompleted := false |}.

Definition DEMO_VIDEOS : list Video :=
  [ demo "video-1" "Big Buck Bunny - A Funny Rabbit Story" "BigBuckBunny.mp4";
    demo "video-2" "Elephants Dream - The World's First Open Movie"
      "ElephantsDream.mp4";
    demo "video-3" "For Bigger Blazes - Chrome Speed Test"
      "ForBiggerBlazes.mp4";
    demo "video-4" "For Bigger Escapes - Chrome Speed Test"
      "ForBiggerEscapes.mp4";
    demo "video-5" "For Bigger Fun - Chrome Speed Test" "ForBiggerFun.mp4" ]%string.

Definition initialApp : AppState :=
  {| videos := DEMO_VIDEOS;
     currentVideo := demo "video-1" "Big Buck Bunny - A Funny Rabbit Story"
                       "BigBuckBunny.mp4";
     stored := fun _ => None |}.

(** The effect of [VideoPlayer] that reports the progress of the hook, with
    the [onProgress] that [App] passes for the current video. *)
Definition reportProgress (d : Qc) (hook : State) (st : AppState) : AppState :=
  if Num.ltb 0 d
  then handleVideoProgress (id (currentVideo st))
         (localProgress hook) (hookIsCompleted hook) st
  else st.

End App.

(** ** [formatDuration] of [App.tsx], [formatTime] of [VideoPlayer.tsx] *)

Module Format.
Import String.

(** Rounding toward zero, and [a % b] on numbers: the remainder has the sign
    of [a]. *)
Definition trunc (x : Qc) : Z := if Num.leb 0 x then Qfloor x else Qceiling x.

Definition ofZ (z : Z) : Qc := Q2Qc (inject_Z z).

Definition rem (a b : Qc) : Qc := a - b * ofZ (trunc (a / b)).

(** [Math.floor]. *)
Definition floor (x : Qc) : Z := Qfloor x.

(** [toString] of a whole number. *)
Definition toString (z : Z) : String.string :=
  DecimalString.NilZero.string_of_int (Z.to_int z).

(** [s.padStart(2, '0')]. *)
Definition padStart2 (s : String.string) : String.string :=
  match String.length s with
  | O => "00"%string
  | S O => String.append "0"%string s
  | _ => s
  end.

Definition minutes (seconds : Qc) : Z := floor (seconds / Q2Qc 60).

Definition remainingSeconds (seconds : Qc) : Z := floor (rem seconds (Q2Qc 60)).

Definition colon : String.string := ":"%string.

Definition formatDuration (seconds : Qc) : String.string :=
  String.append (toString (minutes seconds))
    (String.append colon (padStart2 (toString (remainingSeconds seconds)))).

(** The two decimal digits of a number below 100. *)
Definition digit (z : Z) : Ascii.ascii := Ascii.ascii_of_nat (48 + Z.to_nat z).

Definition twoDigits (r : Z) : String.string :=
  String.String (digit (r / 10))
    (String.String (digit (r mod 10)) String.EmptyString).

(** The text shown for 596.5 seconds. *)
Definition text_9_56 : String.string := "9:56"%string.

End Format.

(** ** A mounted hook with its start-up effect *)

(** [loadProgress] runs in an effect whose dependencies hold
    [calculateProgress], and [calculateProgress] is made anew whenever
    [duration] or [skippedAhead] changes.  So React runs [loadProgress] again
    after every render in which one of the two has changed: after a handler
    that has set or cleared the skip flag, and after a change of the
    [duration] it is given.  The answer of the remote store arrives later, to
    callbacks that hold what [loadProgress] read when it started. *)

Module Session.

(** A run of [loadProgress] whose remote answer is still to come, with what
    its callbacks close over. *)
Record Load : Type := mkLoad {
  l_duration : Qc;
  l_skipped : bool;
  l_localData : option LocalStorageProgress
}.

(** The hook, the [duration] it is given, and the loads under way. *)
Record Session : Type := mkSession {
  hook : State;
  duration : Qc;
  loads : list Load
}.

(** The effect: [loadProgress] up to its call of [getProgress]. *)
Definition startLoad (s : Session) : Session :=
  {| hook := Hook.loadProgress_local (duration s) (hook s);
     duration := duration s;
     loads := loads s
              ++ [ {| l_duration := duration s;
                      l_skipped := skippedAhead (hook s);
                      l_localData := localStorage (hook s) |} ] |}.

(** The render after [before] has become [s]: the effect runs when
    [skippedAhead] or [duration] has changed. *)
Definition render (before s : Session) : Session :=
  if Bool.eqb (skippedAhead (hook s)) (skippedAhead (hook before))
     && Num.eqb (duration s) (duration before)
  then s else startLoad s.

Definition dropNth (i : nat) (l : list Load) : list Load :=
  firstn i l ++ skipn (S i) l.

Inductive Event : Type :=
| Handler (e : Hook.Event)
    (** a call of a handler of the hook *)
| DurationChange (d : Qc)
    (** the hook is given another [duration] *)
| LoadResolved (i : nat) (serverData : IProgress)
    (** [getProgress] of the load at [i] succeeds *)
| LoadRejected (i : nat).
    (** [getProgress] of the load at [i] fails *)

Definition step (ev : Event) (s : Session) : Session :=
  match ev with
  | Handler e =>
      render s
        {| hook := Hook.handle (duration s) e (hook s);
           duration := duration s;
           loads := loads s |}
  | DurationChange d =>
      render s {| hook := hook s; duration := d; loads := loads s |}
  | LoadResolved i serverData =>
      match nth_error (loads s) i with
      | Some l =>
          {| hook := Hook.loadProgress_resolved (l_duration l) (l_skipped l)
                       (l_localData l) serverData (hook s);
             duration := duration s;
             loads := dropNth i (loads s) |}
      | None => s
      end
  | LoadRejected i =>
      match nth_error (loads s) i with
      | Some _ =>
          {| hook := Hook.loadProgress_rejected (hook s);
             duration := duration s;
             loads := dropNth i (loads s) |}
      | None => s
      end
  end.

Definition run (events : list Event) (s : Session) : Session :=
  fold_left (fun s ev => step ev s) events s.

(** The hook as it is mounted with [duration], over the cache item [cache]:
    the effect runs once. *)
Definition mount (now : Z) (cache : option LocalStorageProgress)
  (d : Qc) : Session :=
  startLoad
    {| hook := set_localStorage cache (initialState now);
       duration := d;
       loads := [] |}.

(** A call of a handler other than [resetProgress] and [handlePlay] at
    position 0. *)
Definition plain (ev : Event) : bool :=
  match ev with
  | Handler (Hook.Reset _) => false
  | Handler (Hook.Play _ t) => negb (Num.eqb t 0)
  | Handler _ => true
  | _ => false
  end.



End Session.

(** ** Vocabulary of the properties *)

Module Props.
Import Num.

(** The positions of a half-open watched span. *)
Definition covers (a : IInterval) (x : Qc) : Prop :=
  start a <= x /\ x < end_ a.

Definition disjoint (a b : IInterval) : Prop :=
  forall x, ~ (covers a x /\ covers b x).

Definition startLe (a b : IInterval) : Prop := start a <= start b.

(** [b] begins more than the merge tolerance after [a] ends. *)
Definition apart (a b : IInterval) : Prop :=
  MERGE_TOLERANCE < start b - end_ a.

(** The later interval starts no earlier, and more than the tolerance after
    the end of the earlier one. *)
Definition next (a b : IInterval) : Prop := startLe a b /\ apart a b.

(** Within the video and at least [MINIMUM_WATCH_TIME] long. *)
Definition solid (duration : Qc) (a : IInterval) : Prop :=
  0 <= start a /\ end_ a <= duration /\ start a + MINIMUM_WATCH_TIME <= end_ a.

(** The clamped interval does not end more than the tolerance before it
    starts. *)
Definition upright (duration : Qc) (a : IInterval) : Prop :=
  start (Merge.clamp duration a)
  <= end_ (Merge.clamp duration a) + MERGE_TOLERANCE.

(** Ascending by [start]: every interval against every later one. *)
Definition ascending (l : list IInterval) : Prop := StronglySorted startLe l.

(** Every interval against every later one. *)
Definition pairwiseDisjoint (l : list IInterval) : Prop :=
  ForallOrdPairs disjoint l.

(** Every interval against its successor. *)
Definition separated (l : list IInterval) : Prop := Sorted apart l.

(** The interval lies within the video: [0 <= start] and [end <= duration]. *)
Definition withinVideo (duration : Qc) (a : IInterval) : Prop :=
  0 <= start a /\ end_ a <= duration.

Definition valid (duration : Qc) (a : IInterval) : Prop :=
  Merge.isValid duration a = true.

(** The loop of the merge pass as a recursion over the sorted list, with the
    running last interval [current] held apart.  [MergeFacts.loop_mergeFrom]
    relates it to [Merge.loop]. *)
Fixpoint mergeFrom (duration : Qc) (current : IInterval)
  (sorted : list IInterval) : list IInterval :=
  match sorted with
  | [] => [current]
  | x :: rest =>
      let c := Merge.clamp duration x in
      if leb (start c) (end_ current + MERGE_TOLERANCE)
      then mergeFrom duration
             (mkInterval (start current) (max (end_ current) (end_ c))) rest
      else current :: mergeFrom duration c rest
  end.

(** Two arrangements of a list that differ only in the order of intervals
    with the same [start]. *)
Inductive tieSwap : list IInterval -> list IInterval -> Prop :=
| tieSwap_nil : tieSwap [] []
| tieSwap_skip x l l' : tieSwap l l' -> tieSwap (x :: l) (x :: l')
| tieSwap_swap x y l : start x = start y -> tieSwap (x :: y :: l) (y :: x :: l)
| tieSwap_trans l1 l2 l3 : tieSwap l1 l2 -> tieSwap l2 l3 -> tieSwap l1 l3.

(** [reaches duration skipped l]: a run of [calculateProgress] on the raw
    list [l] sets the completion latch. *)
Definition reaches (duration : Qc) (skipped : bool) (l : list IInterval) : bool :=
  negb (falsy duration)
  && leb LATCH_THRESHOLD (Merge.percentageOf duration l)
  && negb skipped.

(** The tracker holds the intervals and the position of a cached record, of
    a remote record. *)
Definition seededFromCache (parsed : LocalStorageProgress) (st : State) : Prop :=
  intervalsRef st = intervals parsed
  /\ lastKnownPositionRef st = lastPosition parsed.

Definition seededFromServer (serverData : IProgress) (st : State) : Prop :=
  intervalsRef st = p_intervals serverData
  /\ lastKnownPositionRef st = p_lastPosition serverData.

(** The empty record that [resetProgress] writes to the cache. *)
Definition emptyRecord (now : Z) : LocalStorageProgress :=
  {| lastPosition := 0;
     totalWatched := 0;
     intervals := [];
     timestamp := now;
     isCompletedL := false |}.

(** [st] has made no call and no write to the cache since [st0], and holds
    an open interval. *)
Definition quiet (st0 st : State) : Prop :=
  calls st = calls st0 /\ localStorage st = localStorage st0
  /\ exists current, currentIntervalRef st = Some current.

End Props.

(** ** Vocabulary of the further properties *)

Module More.
Import Num.

(** The interval does not end before it starts. *)
Definition proper (a : IInterval) : Prop := start a <= end_ a.

(** An event that can empty the accumulated intervals: a call of
    [resetProgress], or [handlePlay] at position 0. *)
Definition restarts (e : Hook.Event) : bool :=
  match e with
  | Hook.Reset _ => true
  | Hook.Play _ t => eqb t 0
  | _ => false
  end.

Definition isReset (e : Hook.Event) : bool :=
  match e with
  | Hook.Reset _ => true
  | _ => false
  end.

(** While playing there is an open interval. *)
Definition tracking (st : State) : Prop :=
  isPlayingRef st = true -> exists current, currentIntervalRef st = Some current.

(** The cells of the interval bookkeeping. *)
Definition books (st : State) :=
  (intervalsRef st, currentIntervalRef st, skippedAhead st,
   lastKnownPositionRef st, isPlayingRef st).

(** The cells of the two cadences. *)
Definition clocks (st : State) := (lastUIUpdateTimeRef st, lastUpdateTimeRef st).

(** The outside of the hook: the cache and the calls made. *)
Definition outside (st : State) := (localStorage st, calls st).

(** The open interval is closed as [{start, t}] when [t] is a skip, or when
    a persistence tick is due and [{start, t}] is at least
    [MINIMUM_WATCH_TIME] long. *)
Definition closes (now : Z) (t : Qc) (current : IInterval) (st : State) : bool :=
  Hook.isSkip t st
  || (Hook.saveDue now st && leb MINIMUM_WATCH_TIME (t - start current)).

(** The interval that [handlePause] records when [current] is open. *)
Definition pauseRecords (t : Qc) (current : IInterval) : list IInterval :=
  if leb MINIMUM_WATCH_TIME (t - start current)
  then [mkInterval (start current) t] else [].

End More.

(** * Part II: properties *)

(** ** Arithmetic on [Qc] *)

Module NumFacts.
Import Num.

Lemma this_Q2Qc (q : Q) : (this (Q2Qc q) == q)%Q.
Proof. unfold Q2Qc. cbn [this]. apply Qred_correct. Qed.

Lemma this_plus (x y : Qc) : (this (x + y) == this x + this y)%Q.
Proof. unfold Qcplus. apply this_Q2Qc. Qed.

Lemma this_opp (x : Qc) : (this (- x) == - this x)%Q.
Proof. unfold Qcopp. apply this_Q2Qc. Qed.

Lemma this_minus (x y : Qc) : (this (x - y) == this x - this y)%Q.
Proof. unfold Qcminus. rewrite this_plus, this_opp. reflexivity. Qed.

Lemma this_mult (x y : Qc) : (this (x * y) == this x * this y)%Q.
Proof. unfold Qcmult. apply this_Q2Qc. Qed.

Lemma eq_Qeq (x y : Qc) : x = y -> (this x == this y)%Q.
Proof. intros ->. reflexivity. Qed.

Lemma neq_Qeq (x y : Qc) : x <> y -> ~ (this x == this y)%Q.
Proof. intros H E. apply H, Qc_is_canon, E. Qed.

Lemma leb_le (x y : Qc) : leb x y = true <-> x <= y.
Proof. unfold leb, Qcle. apply Qle_bool_iff. Qed.

Lemma leb_gt (x y : Qc) : leb x y = false <-> y < x.
Proof.
  unfold leb, Qclt. split; intro H.
  - apply Qnot_le_lt. intro L. apply Qle_bool_iff in L. congruence.
  - destruct (Qle_bool x y) eqn:E; [|reflexivity].
    apply Qle_bool_iff in E. exfalso. apply (Qlt_not_le _ _ H), E.
Qed.

Lemma ltb_lt (x y : Qc) : ltb x y = true <-> x < y.
Proof.
  unfold ltb. rewrite negb_true_iff. apply (leb_gt y x).
Qed.

Lemma ltb_ge (x y : Qc) : ltb x y = false <-> y <= x.
Proof.
  unfold ltb. rewrite negb_false_iff. apply (leb_le y x).
Qed.

Lemma eqb_eq (x y : Qc) : eqb x y = true <-> x = y.
Proof.
  unfold eqb. split; intro H.
  - apply Qc_is_canon, Qeq_bool_iff, H.
  - subst. apply Qeq_bool_iff. reflexivity.
Qed.

Lemma eqb_neq (x y : Qc) : eqb x y = false <-> x <> y.
Proof.
  split; intro H.
  - intro E. apply eqb_eq in E. congruence.
  - destruct (eqb x y) eqn:E; [|reflexivity]. apply eqb_eq in E. contradiction.
Qed.

End NumFacts.

(** Turns every comparison left in the context into a boolean-free fact on
    [Q] and closes the goal by linear arithmetic. *)
Ltac qc_bool :=
  repeat match goal with
  | H : Num.leb _ _ = true |- _ => apply NumFacts.leb_le in H
  | H : Num.leb _ _ = false |- _ => apply NumFacts.leb_gt in H
  | H : Num.ltb _ _ = true |- _ => apply NumFacts.ltb_lt in H
  | H : Num.ltb _ _ = false |- _ => apply NumFacts.ltb_ge in H
  | H : Num.eqb _ _ = true |- _ => apply NumFacts.eqb_eq in H
  | H : Num.eqb _ _ = false |- _ => apply NumFacts.eqb_neq in H
  | |- Num.leb _ _ = true => apply NumFacts.leb_le
  | |- Num.leb _ _ = false => apply NumFacts.leb_gt
  | |- Num.ltb _ _ = true => apply NumFacts.ltb_lt
  | |- Num.ltb _ _ = false => apply NumFacts.ltb_ge
  | |- Num.eqb _ _ = true => apply NumFacts.eqb_eq
  | |- Num.eqb _ _ = false => apply NumFacts.eqb_neq
  end.

Ltac qc_arith :=
  qc_bool;
  repeat match goal with
  | H : @eq Qc _ _ |- _ => apply NumFacts.eq_Qeq in H
  | H : ~ @eq Qc _ _ |- _ => apply NumFacts.neq_Qeq in H
  | |- @eq Qc _ _ => apply Qc_is_canon
  | |- ~ @eq Qc _ _ => let E := fresh in intro E; apply NumFacts.eq_Qeq in E
  end;
  unfold Qcle, Qclt in *;
  repeat first
    [ rewrite NumFacts.this_plus in *
    | rewrite NumFacts.this_minus in *
    | rewrite NumFacts.this_opp in *
    | rewrite NumFacts.this_Q2Qc in * ];
  lra.

Ltac qc_consts :=
  unfold MINIMUM_WATCH_TIME, SKIP_THRESHOLD, MERGE_TOLERANCE,
    LATCH_THRESHOLD, HUNDRED in *.

Ltac qc := qc_consts; qc_arith.

Module MinMax.
Import Num.

Lemma max_l (x y : Qc) : y <= x -> max x y = x.
Proof. unfold max. intro H. destruct (leb x y) eqn:E; [qc_arith | reflexivity]. Qed.

Lemma max_r (x y : Qc) : x <= y -> max x y = y.
Proof. unfold max. intro H. destruct (leb x y) eqn:E; [reflexivity | qc_arith]. Qed.

Lemma min_l (x y : Qc) : x <= y -> min x y = x.
Proof. unfold min. intro H. destruct (leb x y) eqn:E; [reflexivity | qc_arith]. Qed.

Lemma min_r (x y : Qc) : y <= x -> min x y = y.
Proof. unfold min. intro H. destruct (leb x y) eqn:E; [qc_arith | reflexivity]. Qed.

Lemma max_cases (x y : Qc) :
  (x <= y /\ max x y = y) \/ (y < x /\ max x y = x).
Proof.
  unfold max. destruct (leb x y) eqn:E; [left | right]; split; auto; qc_arith.
Qed.

Lemma min_cases (x y : Qc) :
  (x <= y /\ min x y = x) \/ (y < x /\ min x y = y).
Proof.
  unfold min. destruct (leb x y) eqn:E; [left | right]; split; auto; qc_arith.
Qed.

Lemma max_comm (x y : Qc) : max x y = max y x.
Proof.
  destruct (max_cases x y) as [[? ->] | [? ->]];
  destruct (max_cases y x) as [[? ->] | [? ->]]; qc_arith.
Qed.

Lemma max_assoc (x y z : Qc) : max (max x y) z = max x (max y z).
Proof.
  destruct (max_cases x y) as [[? E1] | [? E1]]; rewrite E1;
  destruct (max_cases y z) as [[? E2] | [? E2]]; rewrite E2;
  try rewrite E1;
  destruct (max_cases x z) as [[? E3] | [? E3]]; try rewrite E3;
  try reflexivity; qc_arith.
Qed.

Lemma le_max_l (x y : Qc) : x <= max x y.
Proof. destruct (max_cases x y) as [[? ->] | [? ->]]; qc_arith. Qed.

Lemma le_max_r (x y : Qc) : y <= max x y.
Proof. destruct (max_cases x y) as [[? ->] | [? ->]]; qc_arith. Qed.

End MinMax.

(** ** The merge pass *)

Module MergeFacts.
Import Num NumFacts Merge MinMax Props.

Lemma interval_eqb_eq (a b : IInterval) : interval_eqb a b = true <-> a = b.
Proof.
  unfold interval_eqb. rewrite andb_true_iff, !eqb_eq.
  destruct a, b; cbn. split.
  - intros [-> ->]. reflexivity.
  - intros [= -> ->]. split; reflexivity.
Qed.

Lemma intervals_eqb_eq (l1 l2 : list IInterval) :
  intervals_eqb l1 l2 = true <-> l1 = l2.
Proof.
  revert l2. induction l1 as [|a l1 IH]; intros [|b l2]; cbn;
    try (split; [discriminate | congruence]); try tauto.
  rewrite andb_true_iff, interval_eqb_eq, IH. split.
  - intros [-> ->]. reflexivity.
  - intros [= -> ->]. split; reflexivity.
Qed.

Lemma intervals_eqb_neq (l1 l2 : list IInterval) :
  intervals_eqb l1 l2 = false <-> l1 <> l2.
Proof.
  split; intro H.
  - intro E. apply intervals_eqb_eq in E. congruence.
  - destruct (intervals_eqb l1 l2) eqn:E; [|reflexivity].
    apply intervals_eqb_eq in E. contradiction.
Qed.


Example merge_within_tolerance :
  intervals_eqb
    (mergedIntervals (Q2Qc 100) [iv 0 30; iv (601 # 20) 60])
    [iv 0 60] = true.
Proof. vm_compute. reflexivity. Qed.

Example merge_beyond_tolerance :
  intervals_eqb
    (mergedIntervals (Q2Qc 100) [iv 32 60; iv 0 30])
    [iv 0 30; iv 32 60] = true
  /\ eqb (totalWatchedOf (Q2Qc 100) [iv 32 60; iv 0 30]) (Q2Qc 58) = true.
Proof. split; vm_compute; reflexivity. Qed.

(** *** The stable sort *)

Lemma insert_perm x l : Permutation (x :: l) (insert x l).
Proof.
  induction l as [|y l IH]; cbn; [reflexivity|].
  destruct (leb (start x) (start y)); [reflexivity|].
  rewrite perm_swap. apply perm_skip, IH.
Qed.

Lemma sort_perm l : Permutation l (sort l).
Proof.
  induction l as [|x l IH]; cbn; [constructor|].
  rewrite <- insert_perm. apply perm_skip, IH.
Qed.

Lemma insert_ascending x l : ascending l -> ascending (insert x l).
Proof.
  unfold ascending. induction l as [|y l IH]; intro H; cbn.
  - repeat constructor.
  - destruct (leb (start x) (start y)) eqn:E.
    + constructor; [exact H|].
      apply StronglySorted_inv in H as [_ H].
      constructor; [unfold startLe; qc|].
      eapply Forall_impl; [|exact H].
      unfold startLe. intros a Ha. qc.
    + apply StronglySorted_inv in H as [Hl Hy].
      constructor; [apply IH, Hl|].
      eapply Permutation_Forall; [apply insert_perm|].
      constructor; [unfold startLe; qc | exact Hy].
Qed.

Lemma sort_ascending l : ascending (sort l).
Proof.
  induction l as [|x l IH]; cbn; [constructor | apply insert_ascending, IH].
Qed.

(** Stability: the intervals of any one [start] keep their order. *)
Lemma insert_stable k x l :
  filter (fun i => eqb (start i) k) (insert x l)
  = filter (fun i => eqb (start i) k) (x :: l).
Proof.
  induction l as [|y l IH]; [reflexivity|].
  cbn [insert]. destruct (leb (start x) (start y)) eqn:E; [reflexivity|].
  cbn [filter] in *. rewrite IH.
  destruct (eqb (start x) k) eqn:Ex, (eqb (start y) k) eqn:Ey; try reflexivity.
  exfalso. qc.
Qed.

Lemma sort_stable k l :
  filter (fun i => eqb (start i) k) (sort l)
  = filter (fun i => eqb (start i) k) l.
Proof.
  induction l as [|x l IH]; [reflexivity|].
  cbn [sort]. rewrite insert_stable. cbn [filter]. rewrite IH. reflexivity.
Qed.

(** A list that is already ascending is left as it is. *)
Lemma sort_ascending_id l : ascending l -> sort l = l.
Proof.
  unfold ascending. induction l as [|x l IH]; intro H; [reflexivity|].
  apply StronglySorted_inv in H as [Hl Hx]. cbn. rewrite (IH Hl).
  destruct l as [|y l]; [reflexivity|]. cbn.
  apply Forall_inv in Hx. unfold startLe in Hx.
  destruct (leb (start x) (start y)) eqn:E; [reflexivity | exfalso; qc].
Qed.

(** *** The loop *)

Lemma loop_mergeFrom d l current rest :
  rev (loop d l (current :: rest)) = rev rest ++ mergeFrom d current l.
Proof.
  revert current rest. induction l as [|x l IH]; intros current rest.
  - reflexivity.
  - unfold loop in *. cbn [fold_left mergeFrom step].
    destruct (leb _ _).
    + apply IH.
    + rewrite IH. cbn [rev]. rewrite <- app_assoc. reflexivity.
Qed.

Lemma mergedIntervals_sorted d l :
  mergedIntervals d l =
  match sort (validIntervals d l) with
  | [] => []
  | x :: rest => mergeFrom d (clamp d x) rest
  end.
Proof.
  unfold mergedIntervals. destruct (sort (validIntervals d l)) as [|x rest].
  - reflexivity.
  - unfold loop. cbn [fold_left step]. apply (loop_mergeFrom d rest).
Qed.

Lemma mergeFrom_head d current l :
  exists h t, mergeFrom d current l = h :: t /\ start h = start current.
Proof.
  revert current. induction l as [|x l IH]; intro current; cbn.
  - eauto.
  - destruct (leb _ _).
    + destruct (IH (mkInterval (start current)
                      (max (end_ current) (end_ (clamp d x)))))
        as (h & t & E & S). eauto.
    + eauto.
Qed.

Lemma next_trans : Relation_Definitions.transitive _ next.
Proof.
  unfold next, startLe, apart. intros a b c [H1 H2] [H3 H4]. split; qc.
Qed.

Lemma clamp_start_mono d x y :
  start x <= start y -> start (clamp d x) <= start (clamp d y).
Proof.
  intro H. cbn.
  destruct (max_cases 0 (start x)) as [[? ->] | [? ->]];
  destruct (max_cases 0 (start y)) as [[? ->] | [? ->]]; qc.
Qed.

Lemma mergeFrom_next d current l :
  ascending l ->
  Forall (fun x => start current <= start (clamp d x)) l ->
  Sorted next (mergeFrom d current l).
Proof.
  revert current. induction l as [|x l IH]; intros current Hasc Hge;
    cbn [mergeFrom].
  - repeat constructor.
  - apply StronglySorted_inv in Hasc as [Hl Hx].
    apply Forall_cons_iff in Hge as [Hc Hge].
    destruct (leb _ _) eqn:E.
    + apply IH; [exact Hl | exact Hge].
    + assert (Hrest : Forall (fun y => start (clamp d x) <= start (clamp d y)) l).
      { eapply Forall_impl; [|exact Hx]. intros y Hy.
        apply clamp_start_mono, Hy. }
      constructor; [apply IH; assumption|].
      destruct (mergeFrom_head d (clamp d x) l) as (h & t & -> & S).
      constructor. unfold next, startLe, apart. rewrite S. split; qc.
Qed.

Lemma mergedIntervals_next d l : StronglySorted next (mergedIntervals d l).
Proof.
  apply Sorted_StronglySorted; [exact next_trans|].
  rewrite mergedIntervals_sorted.
  pose proof (sort_ascending (validIntervals d l)) as Hasc.
  destruct (sort (validIntervals d l)) as [|x rest]; [constructor|].
  apply StronglySorted_inv in Hasc as [Hl Hx].
  apply mergeFrom_next; [exact Hl|].
  eapply Forall_impl; [|exact Hx]. intros y Hy. apply clamp_start_mono, Hy.
Qed.

Lemma StronglySorted_impl (R R' : IInterval -> IInterval -> Prop) l :
  (forall a b, R a b -> R' a b) -> StronglySorted R l -> StronglySorted R' l.
Proof.
  intros HR. induction 1 as [|a l Hl IH Ha]; constructor; [exact IH|].
  eapply Forall_impl; [|exact Ha]. intros b. apply HR.
Qed.

Lemma StronglySorted_FOP (R : IInterval -> IInterval -> Prop) l :
  StronglySorted R l -> ForallOrdPairs R l.
Proof. induction 1; constructor; assumption. Qed.

Lemma apart_disjoint a b : apart a b -> disjoint a b.
Proof.
  unfold apart, disjoint, covers. intros H x [[H1 H2] [H3 H4]]. qc.
Qed.

Lemma mergedIntervals_ascending d l : ascending (mergedIntervals d l).
Proof.
  eapply StronglySorted_impl; [|apply mergedIntervals_next].
  intros a b [H _]. exact H.
Qed.

Lemma mergedIntervals_apart d l : StronglySorted apart (mergedIntervals d l).
Proof.
  eapply StronglySorted_impl; [|apply mergedIntervals_next].
  intros a b [_ H]. exact H.
Qed.

(** *** The filter *)

Lemma isValid_iff d x :
  isValid d x = true <->
  start x < end_ x /\ start x < d
  /\ MINIMUM_WATCH_TIME <= end_ x - start x /\ end_ x - start x <= d.
Proof.
  unfold isValid.
  destruct (leb (end_ x) (start x)) eqn:E1;
  [| destruct (leb d (start x)) eqn:E2;
   [| destruct (ltb (end_ x - start x) MINIMUM_WATCH_TIME) eqn:E3;
    [| destruct (ltb d (end_ x - start x)) eqn:E4 ] ] ];
  (split; [try discriminate; intros _; repeat split; qc
          | intros (H1 & H2 & H3 & H4); try reflexivity; exfalso; qc]).
Qed.

Lemma filter_all (f : IInterval -> bool) l :
  Forall (fun x => f x = true) l -> filter f l = l.
Proof.
  induction 1 as [|x l Hx _ IH]; cbn; [reflexivity|].
  rewrite Hx, IH. reflexivity.
Qed.

Lemma filter_perm (f : IInterval -> bool) l l' :
  Permutation l l' -> Permutation (filter f l) (filter f l').
Proof.
  induction 1 as [| x l l' _ IH | x y l | l1 l2 l3 _ IH1 _ IH2]; cbn.
  - constructor.
  - destruct (f x); [apply perm_skip|]; exact IH.
  - destruct (f x), (f y); try reflexivity. apply perm_swap.
  - etransitivity; eassumption.
Qed.

Lemma validIntervals_valid d l : Forall (valid d) (validIntervals d l).
Proof.
  unfold validIntervals. apply Forall_forall. intros x Hx.
  apply filter_In in Hx as [_ Hx]. exact Hx.
Qed.

Lemma validIntervals_incl (P : IInterval -> Prop) d l :
  Forall P l -> Forall P (validIntervals d l).
Proof.
  intro H. apply Forall_forall. intros x Hx.
  apply filter_In in Hx as [Hx _].
  rewrite Forall_forall in H. apply H, Hx.
Qed.

(** *** Merging what is already merged *)

Lemma clamp_within d x : withinVideo d (clamp d x).
Proof.
  unfold withinVideo. cbn. split.
  - apply le_max_l.
  - destruct (min_cases d (end_ x)) as [[? ->] | [? ->]]; qc.
Qed.

Lemma clamp_id d x : withinVideo d x -> clamp d x = x.
Proof.
  intros [H1 H2]. destruct x as [s e]. unfold clamp. cbn in *.
  rewrite (max_r 0 s H1), (min_r d e H2). reflexivity.
Qed.

Lemma mergeFrom_within d current l :
  withinVideo d current -> Forall (withinVideo d) (mergeFrom d current l).
Proof.
  revert current. induction l as [|x l IH]; intros current Hc; cbn [mergeFrom].
  - constructor; [exact Hc | constructor].
  - pose proof (clamp_within d x) as Hx.
    remember (clamp d x) as c eqn:Ec. clear Ec.
    destruct (leb _ _).
    + apply IH. destruct Hc as [H1 H2], Hx as [H3 H4].
      split; cbn; [exact H1|].
      destruct (max_cases (end_ current) (end_ c)) as [[? ->] | [? ->]];
        assumption.
    + constructor; [exact Hc | apply IH, Hx].
Qed.

Lemma mergedIntervals_within d l :
  Forall (withinVideo d) (mergedIntervals d l).
Proof.
  rewrite mergedIntervals_sorted.
  destruct (sort (validIntervals d l)) as [|x rest]; [constructor|].
  apply mergeFrom_within, clamp_within.
Qed.

Lemma mergeFrom_fixed d a l :
  Sorted next (a :: l) -> Forall (withinVideo d) l ->
  mergeFrom d a l = a :: l.
Proof.
  revert a. induction l as [|x l IH]; intros a Hs Hw; cbn [mergeFrom].
  - reflexivity.
  - apply Sorted_inv in Hs as [Hs Hd]. apply HdRel_inv in Hd as [_ Hd].
    apply Forall_cons_iff in Hw as [Hx Hw].
    rewrite (clamp_id d x Hx).
    unfold apart in Hd.
    destruct (leb (start x) (end_ a + MERGE_TOLERANCE)) eqn:E; [exfalso; qc|].
    rewrite (IH x Hs Hw). reflexivity.
Qed.

(** The pass leaves its own output as it is whenever every interval of the
    output still passes the filter. *)
Lemma mergedIntervals_fixed d l :
  Forall (valid d) (mergedIntervals d l) ->
  mergedIntervals d (mergedIntervals d l) = mergedIntervals d l.
Proof.
  intro Hv.
  pose proof (mergedIntervals_next d l) as Hn.
  pose proof (mergedIntervals_within d l) as Hw.
  pose proof (mergedIntervals_ascending d l) as Ha.
  set (m := mergedIntervals d l) in *.
  rewrite (mergedIntervals_sorted d m).
  unfold validIntervals. rewrite (filter_all _ m Hv).
  rewrite (sort_ascending_id m Ha).
  destruct m as [|x rest]; [reflexivity|].
  apply Forall_cons_iff in Hw as [Hx Hw].
  rewrite (clamp_id d x Hx).
  apply mergeFrom_fixed; [apply StronglySorted_Sorted, Hn | exact Hw].
Qed.

Lemma solid_valid d x : solid d x -> valid d x.
Proof.
  unfold solid, valid. intros (H1 & H2 & H3). apply isValid_iff.
  repeat split; qc.
Qed.

Lemma solid_within d x : solid d x -> withinVideo d x.
Proof. unfold solid, withinVideo. tauto. Qed.

Lemma valid_within_solid d x : valid d x -> withinVideo d x -> solid d x.
Proof.
  unfold solid, valid, withinVideo. intros Hv [H1 H2].
  apply isValid_iff in Hv as (H3 & H4 & H5 & H6). repeat split; qc.
Qed.

Lemma mergeFrom_solid d current l :
  solid d current -> Forall (solid d) l -> Forall (solid d) (mergeFrom d current l).
Proof.
  revert current. induction l as [|x l IH]; intros current Hc Hl; cbn [mergeFrom].
  - constructor; [exact Hc | constructor].
  - apply Forall_cons_iff in Hl as [Hx Hl].
    rewrite (clamp_id d x (solid_within d x Hx)).
    destruct (leb _ _).
    + apply IH; [|exact Hl].
      destruct Hc as (H1 & H2 & H3), Hx as (H4 & H5 & H6).
      unfold solid. cbn.
      destruct (max_cases (end_ current) (end_ x)) as [[? ->] | [? ->]];
        repeat split; qc.
    + constructor; [exact Hc | apply IH; assumption].
Qed.

(** When the raw intervals lie within the video, every merged interval
    passes the filter again. *)
Lemma mergedIntervals_valid d l :
  Forall (withinVideo d) l -> Forall (valid d) (mergedIntervals d l).
Proof.
  intro Hw.
  assert (Hs : Forall (solid d) (sort (validIntervals d l))).
  { eapply Permutation_Forall; [apply sort_perm|].
    pose proof (validIntervals_valid d l) as Hv.
    pose proof (validIntervals_incl _ d l Hw) as Hw'.
    rewrite Forall_forall in *. intros x Hx.
    apply valid_within_solid; auto. }
  rewrite mergedIntervals_sorted.
  destruct (sort (validIntervals d l)) as [|x rest]; [constructor|].
  apply Forall_cons_iff in Hs as [Hx Hs].
  rewrite (clamp_id d x (solid_within d x Hx)).
  eapply Forall_impl; [apply solid_valid|].
  apply mergeFrom_solid; assumption.
Qed.

(** *** Rearranging the raw list *)

Lemma tieSwap_refl l : tieSwap l l.
Proof. induction l; constructor; assumption. Qed.

Lemma tieSwap_perm l l' : tieSwap l l' -> Permutation l l'.
Proof.
  induction 1; [constructor | apply perm_skip; assumption | apply perm_swap
               | etransitivity; eassumption].
Qed.

Lemma insert_tieSwap x l l' :
  tieSwap l l' -> tieSwap (insert x l) (insert x l').
Proof.
  induction 1 as [| y l l' H IH | y z l E | l1 l2 l3 _ IH1 _ IH2].
  - apply tieSwap_refl.
  - cbn. destruct (leb (start x) (start y)).
    + apply tieSwap_skip, tieSwap_skip, H.
    + apply tieSwap_skip, IH.
  - cbn. rewrite E. destruct (leb (start x) (start z)).
    + apply tieSwap_skip, tieSwap_swap, E.
    + apply tieSwap_swap, E.
  - eapply tieSwap_trans; eassumption.
Qed.

Lemma insert_insert x y l :
  tieSwap (insert x (insert y l)) (insert y (insert x l)).
Proof.
  induction l as [|z l IH]; cbn.
  - destruct (leb (start x) (start y)) eqn:E1, (leb (start y) (start x)) eqn:E2.
    + apply tieSwap_swap. qc.
    + apply tieSwap_refl.
    + apply tieSwap_refl.
    + exfalso. qc.
  - destruct (leb (start y) (start z)) eqn:Ey, (leb (start x) (start z)) eqn:Ex;
      cbn; rewrite ?Ex, ?Ey.
    + destruct (leb (start x) (start y)) eqn:E1, (leb (start y) (start x)) eqn:E2.
      * apply tieSwap_swap. qc.
      * apply tieSwap_refl.
      * apply tieSwap_refl.
      * exfalso. qc.
    + destruct (leb (start x) (start y)) eqn:E1; [exfalso; qc|].
      apply tieSwap_refl.
    + destruct (leb (start y) (start x)) eqn:E2; [exfalso; qc|].
      apply tieSwap_refl.
    + apply tieSwap_skip, IH.
Qed.

Lemma sort_tieSwap l l' : Permutation l l' -> tieSwap (sort l) (sort l').
Proof.
  induction 1 as [| x l l' _ IH | x y l | l1 l2 l3 _ IH1 _ IH2]; cbn.
  - constructor.
  - apply insert_tieSwap, IH.
  - apply insert_insert.
  - eapply tieSwap_trans; eassumption.
Qed.

Lemma step_tie d acc x y :
  start x = start y -> upright d x -> upright d y ->
  step d (step d acc x) y = step d (step d acc y) x.
Proof.
  unfold upright. intros E Hx Hy.
  assert (Es : start (clamp d x) = start (clamp d y)) by (cbn; rewrite E; reflexivity).
  remember (clamp d x) as cx eqn:Ecx. remember (clamp d y) as cy eqn:Ecy.
  unfold step. rewrite <- Ecx, <- Ecy. clear Ecx Ecy E.
  destruct acc as [|lastInterval rest].
  - cbn. rewrite Es.
    destruct (leb (start cy) (end_ cx + MERGE_TOLERANCE)) eqn:E1; [|exfalso; qc].
    destruct (leb (start cy) (end_ cy + MERGE_TOLERANCE)) eqn:E2; [|exfalso; qc].
    rewrite <- Es, max_comm. reflexivity.
  - rewrite <- Es.
    destruct (leb (start cx) (end_ lastInterval + MERGE_TOLERANCE)) eqn:E1; cbn.
    + pose proof (le_max_l (end_ lastInterval) (end_ cx)) as L1.
      pose proof (le_max_l (end_ lastInterval) (end_ cy)) as L2.
      destruct (leb (start cx) (max (end_ lastInterval) (end_ cx) + MERGE_TOLERANCE))
        eqn:E2; [|exfalso; qc].
      destruct (leb (start cx) (max (end_ lastInterval) (end_ cy) + MERGE_TOLERANCE))
        eqn:E3; [|exfalso; qc].
      rewrite !max_assoc, (max_comm (end_ cx)). reflexivity.
    + destruct (leb (start cx) (end_ cx + MERGE_TOLERANCE)) eqn:E2; [|exfalso; qc].
      destruct (leb (start cx) (end_ cy + MERGE_TOLERANCE)) eqn:E3; [|exfalso; qc].
      rewrite Es, max_comm. reflexivity.
Qed.

Lemma loop_tieSwap d l l' :
  tieSwap l l' -> Forall (upright d) l ->
  forall acc, loop d l acc = loop d l' acc.
Proof.
  unfold loop.
  induction 1 as [| x l l' _ IH | x y l E | l1 l2 l3 H12 IH1 _ IH2]; intros Hu acc.
  - reflexivity.
  - cbn. apply IH. apply Forall_cons_iff in Hu as [_ Hu]. exact Hu.
  - cbn. apply Forall_cons_iff in Hu as [Hx Hu].
    apply Forall_cons_iff in Hu as [Hy _].
    rewrite (step_tie d acc x y E Hx Hy). reflexivity.
  - rewrite (IH1 Hu). apply IH2.
    eapply Permutation_Forall; [apply tieSwap_perm, H12 | exact Hu].
Qed.

Lemma valid_upright d x : 0 < d -> valid d x -> 0 <= end_ x -> upright d x.
Proof.
  unfold valid, upright. intros Hd Hv He.
  apply isValid_iff in Hv as (H1 & H2 & H3 & H4). cbn.
  destruct (max_cases 0 (start x)) as [[? ->] | [? ->]];
  destruct (min_cases d (end_ x)) as [[? ->] | [? ->]]; qc.
Qed.

(** The merged intervals do not depend on the order of the raw list when no
    raw interval ends before position 0. *)
Lemma mergedIntervals_perm d l l' :
  0 < d -> Forall (fun x => 0 <= end_ x) l -> Permutation l l' ->
  mergedIntervals d l = mergedIntervals d l'.
Proof.
  intros Hd He Hp. unfold mergedIntervals. f_equal.
  apply loop_tieSwap.
  - apply sort_tieSwap, filter_perm, Hp.
  - eapply Permutation_Forall; [apply sort_perm|].
    pose proof (validIntervals_valid d l) as Hv.
    pose proof (validIntervals_incl _ d l He) as He'.
    rewrite Forall_forall in *. intros x Hx.
    apply valid_upright; auto.
Qed.

End MergeFacts.

(** ** The handlers *)

Module HookFacts.
Import Num NumFacts Set_ Hook Props.

Lemma falsy_iff d : falsy d = true <-> d = 0.
Proof. unfold falsy. apply eqb_eq. Qed.

Lemma falsy_false_iff d : falsy d = false <-> d <> 0.
Proof. unfold falsy. apply eqb_neq. Qed.

Lemma falsy_pos d : 0 < d -> falsy d = false.
Proof. intro H. apply falsy_false_iff. qc. Qed.

(** *** [calculateProgress] *)

Lemma calculateProgress_zero skipped st :
  calculateProgress 0 skipped st = (0, st).
Proof. reflexivity. Qed.


(** With the latch set the state is left as it is, whatever the duration. *)
Lemma calculateProgress_latched_state d skipped st :
  wasFullyWatchedRef st = true -> snd (calculateProgress d skipped st) = st.
Proof.
  intro Hl. unfold calculateProgress. rewrite Hl.
  destruct (falsy d); reflexivity.
Qed.

(** What [calculateProgress] does not write. *)
Lemma calculateProgress_frame d skipped st p st' :
  calculateProgress d skipped st = (p, st') ->
  calls st' = calls st /\ localStorage st' = localStorage st
  /\ currentIntervalRef st' = currentIntervalRef st
  /\ intervalsRef st' = intervalsRef st
  /\ lastKnownPositionRef st' = lastKnownPositionRef st
  /\ skippedAhead st' = skippedAhead st
  /\ isPlayingRef st' = isPlayingRef st.
Proof.
  unfold calculateProgress.
  destruct (falsy d); [intros [= <- <-]; repeat split|].
  destruct (wasFullyWatchedRef st); [intros [= <- <-]; repeat split|].
  destruct (_ && _); intros [= <- <-]; repeat split.
Qed.

(** The latch after [calculateProgress]. *)
Lemma calculateProgress_latch d skipped st :
  wasFullyWatchedRef (snd (calculateProgress d skipped st))
  = wasFullyWatchedRef st || reaches d skipped (intervalsRef st).
Proof.
  unfold calculateProgress, reaches, Merge.percentageOf.
  destruct (falsy d); [cbn; rewrite orb_false_r; reflexivity|].
  destruct (wasFullyWatchedRef st) eqn:E; [cbn; exact E|].
  cbn [negb andb orb].
  destruct (leb LATCH_THRESHOLD _), skipped; cbn; try reflexivity; exact E.
Qed.

(** *** The latch under the events *)

Lemma saveToLocalStorage_latch now st :
  wasFullyWatchedRef (saveToLocalStorage now st) = wasFullyWatchedRef st.
Proof. reflexivity. Qed.

Lemma resetProgress_latched now st :
  wasFullyWatchedRef st = true -> resetProgress now st = st.
Proof. intro H. unfold resetProgress. rewrite H. reflexivity. Qed.

Lemma handlePlay_latched now t st :
  wasFullyWatchedRef st = true ->
  wasFullyWatchedRef (handlePlay now t st) = true.
Proof.
  intro H. unfold handlePlay. cbn. rewrite H, andb_false_r. exact H.
Qed.

Lemma handlePause_latched d now t st :
  wasFullyWatchedRef st = true ->
  wasFullyWatchedRef (handlePause d now t st) = true.
Proof.
  intro H. unfold handlePause. cbn.
  destruct (currentIntervalRef st) as [current|]; [|exact H]. cbn.
  destruct (leb _ _); [|exact H].
  match goal with
  | |- context [calculateProgress ?d ?s ?x] =>
      pose proof (calculateProgress_latched_state d s x H) as E;
      destruct (calculateProgress d s x) as [p st'] eqn:C
  end.
  cbn in E. subst st'. exact H.
Qed.

Lemma updateUI_latched d skipped now st :
  wasFullyWatchedRef st = true ->
  wasFullyWatchedRef (updateUI d skipped now st) = true.
Proof.
  intro H. unfold updateUI.
  pose proof (calculateProgress_latched_state d skipped st H) as E.
  destruct (calculateProgress d skipped st) as [p st'].
  cbn in E. subst st'. exact H.
Qed.

Lemma saveCurrentInterval_latch t st :
  wasFullyWatchedRef (saveCurrentInterval t st) = wasFullyWatchedRef st.
Proof.
  unfold saveCurrentInterval.
  destruct (currentIntervalRef st); [|reflexivity].
  destruct (leb _ _); reflexivity.
Qed.

Lemma saveProgress_latch t st :
  wasFullyWatchedRef (saveProgress t st) = wasFullyWatchedRef st.
Proof. unfold saveProgress. destruct (currentIntervalRef st); reflexivity. Qed.

Lemma saveToServer_latched d skipped now t st :
  wasFullyWatchedRef st = true ->
  wasFullyWatchedRef (saveToServer d skipped now t st) = true.
Proof.
  intro H. unfold saveToServer.
  rewrite <- (saveCurrentInterval_latch t st) in H.
  pose proof (calculateProgress_latched_state d skipped _ H) as E.
  destruct (calculateProgress d skipped (saveCurrentInterval t st)) as [p st'].
  cbn in E. subst st'. cbn. rewrite saveProgress_latch. exact H.
Qed.

Lemma checkForSkips_latch t st :
  wasFullyWatchedRef (checkForSkips t st) = wasFullyWatchedRef st.
Proof.
  unfold checkForSkips. destruct (isSkip t st); [|reflexivity].
  destruct (currentIntervalRef st); reflexivity.
Qed.

Lemma updateCurrentInterval_latch t st :
  wasFullyWatchedRef (updateCurrentInterval t st) = wasFullyWatchedRef st.
Proof. unfold updateCurrentInterval. destruct (currentIntervalRef st); reflexivity. Qed.

Lemma handleTimeUpdate_latched d now t st :
  wasFullyWatchedRef st = true ->
  wasFullyWatchedRef (handleTimeUpdate d now t st) = true.
Proof.
  intro H. unfold handleTimeUpdate.
  destruct (_ || _); [exact H|]. cbn [wasFullyWatchedRef set_lastKnownPositionRef].
  assert (H1 : wasFullyWatchedRef
                 (checkForSkips t (updateCurrentInterval t st)) = true)
    by (rewrite checkForSkips_latch, updateCurrentInterval_latch; exact H).
  set (st1 := checkForSkips t (updateCurrentInterval t st)) in *.
  assert (H2 : wasFullyWatchedRef
                 (if uiDue now st then updateUI d (skippedAhead st) now st1
                  else st1) = true)
    by (destruct (uiDue now st); [apply updateUI_latched|]; exact H1).
  destruct (saveDue now st); [apply saveToServer_latched|]; exact H2.
Qed.

Lemma handle_latched d e st :
  wasFullyWatchedRef st = true -> wasFullyWatchedRef (handle d e st) = true.
Proof.
  intro H. destruct e; cbn [handle].
  - apply handlePlay_latched, H.
  - apply handlePause_latched, H.
  - apply handleTimeUpdate_latched, H.
  - rewrite resetProgress_latched; exact H.
  - exact H.
  - exact H.
Qed.

Lemma run_latched events st :
  wasFullyWatchedRef st = true -> wasFullyWatchedRef (run events st) = true.
Proof.
  revert st. induction events as [|[d e] events IH]; intros st H; [exact H|].
  apply IH, handle_latched, H.
Qed.

(** *** [handleTimeUpdate] between two ticks *)

Lemma handleTimeUpdate_between_ticks d now t st :
  isPlayingRef st = true -> d <> 0 ->
  uiDue now st = false -> saveDue now st = false ->
  handleTimeUpdate d now t st
  = set_lastKnownPositionRef t (checkForSkips t (updateCurrentInterval t st)).
Proof.
  intros Hp Hd Hu Hs. unfold handleTimeUpdate.
  apply falsy_false_iff in Hd. rewrite Hp, Hd, Hu, Hs. reflexivity.
Qed.

(** On a skip the interval that is closed is the open one with its end
    already moved to [t]. *)
Lemma handleTimeUpdate_skip d now t st current :
  isPlayingRef st = true -> d <> 0 ->
  uiDue now st = false -> saveDue now st = false ->
  currentIntervalRef st = Some current ->
  isSkip t st = true ->
  let st' := handleTimeUpdate d now t st in
  intervalsRef st' = intervalsRef st ++ [mkInterval (start current) t]
  /\ currentIntervalRef st' = Some (mkInterval t t)
  /\ skippedAhead st' = true
  /\ lastKnownPositionRef st' = t.
Proof.
  intros Hp Hd Hu Hs Hc Hk. cbv zeta.
  rewrite (handleTimeUpdate_between_ticks d now t st Hp Hd Hu Hs).
  unfold checkForSkips, updateCurrentInterval. rewrite Hc.
  replace (isSkip t (set_currentIntervalRef
                       (Some (mkInterval (start current) t)) st))
    with true by (rewrite <- Hk; reflexivity).
  cbn. auto.
Qed.

Lemma handleTimeUpdate_no_skip d now t st current :
  isPlayingRef st = true -> d <> 0 ->
  uiDue now st = false -> saveDue now st = false ->
  currentIntervalRef st = Some current ->
  isSkip t st = false ->
  let st' := handleTimeUpdate d now t st in
  intervalsRef st' = intervalsRef st
  /\ currentIntervalRef st' = Some (mkInterval (start current) t)
  /\ skippedAhead st' = skippedAhead st
  /\ lastKnownPositionRef st' = t.
Proof.
  intros Hp Hd Hu Hs Hc Hk. cbv zeta.
  rewrite (handleTimeUpdate_between_ticks d now t st Hp Hd Hu Hs).
  unfold checkForSkips, updateCurrentInterval. rewrite Hc.
  replace (isSkip t (set_currentIntervalRef
                       (Some (mkInterval (start current) t)) st))
    with false by (rewrite <- Hk; reflexivity).
  cbn. auto.
Qed.

(** [lastKnownPositionRef] is written last, on every call that gets past
    the guard. *)
Lemma handleTimeUpdate_lastKnownPosition d now t st :
  isPlayingRef st = true -> d <> 0 ->
  lastKnownPositionRef (handleTimeUpdate d now t st) = t.
Proof.
  intros Hp Hd. unfold handleTimeUpdate.
  apply falsy_false_iff in Hd. rewrite Hp, Hd. reflexivity.
Qed.

(** *** The calls of [handleTimeUpdate] *)

Lemma updateCurrentInterval_quiet t st : quiet st (updateCurrentInterval t st).
Proof.
  unfold quiet, updateCurrentInterval.
  destruct (currentIntervalRef st); cbn; eauto.
Qed.

Lemma checkForSkips_quiet t st0 st : quiet st0 st -> quiet st0 (checkForSkips t st).
Proof.
  unfold quiet, checkForSkips. intros (H1 & H2 & current & H3).
  destruct (isSkip t st); [|eauto]. rewrite H3. cbn. eauto.
Qed.

Lemma updateUI_quiet d skipped now st0 st :
  quiet st0 st -> quiet st0 (updateUI d skipped now st).
Proof.
  unfold quiet, updateUI. intros (H1 & H2 & current & H3).
  destruct (calculateProgress d skipped st) as [p st'] eqn:C.
  apply calculateProgress_frame in C as (F1 & F2 & F3 & _).
  cbn. rewrite F1, F2, F3. eauto.
Qed.

Lemma saveCurrentInterval_quiet t st0 st :
  quiet st0 st -> quiet st0 (saveCurrentInterval t st).
Proof.
  unfold quiet, saveCurrentInterval. intros (H1 & H2 & current & H3).
  rewrite H3. destruct (leb _ _); cbn; eauto.
Qed.

Lemma saveToServer_calls d skipped now t st0 st :
  quiet st0 st ->
  let st' := saveToServer d skipped now t st in
  localStorage st' = localStorage st0
  /\ exists current,
       currentIntervalRef st' = Some current
       /\ calls st' = calls st0 ++ [Post current t].
Proof.
  intro Hq. apply (saveCurrentInterval_quiet t) in Hq.
  destruct Hq as (H1 & H2 & current & H3).
  unfold saveToServer.
  destruct (calculateProgress d skipped (saveCurrentInterval t st))
    as [p st'] eqn:C.
  apply calculateProgress_frame in C as (F1 & F2 & F3 & _).
  unfold saveProgress. cbn. rewrite F3, H3. cbn.
  rewrite F1, F2, H1, H2. split; [reflexivity|].
  exists current. rewrite F3. auto.
Qed.

Lemma saveProgress_resolved_spec now response st :
  let st' := saveProgress_resolved now response st in
  localStorage st' = Some (cacheRecord now st)
  /\ calls st' = calls st ++ [SetItem (cacheRecord now st); Emit response].
Proof.
  cbv zeta. unfold saveProgress_resolved, saveToLocalStorage, cacheRecord.
  cbn. rewrite <- app_assoc. auto.
Qed.

(** *** [loadProgress] *)

Lemma loadProgress_local_cached d st parsed :
  localStorage st = Some parsed ->
  let st' := loadProgress_local d st in
  seededFromCache parsed st'
  /\ wasFullyWatchedRef st'
     = isCompletedL parsed || reaches d (skippedAhead st) (intervals parsed).
Proof.
  intro H. unfold loadProgress_local, seededFromCache. cbn. rewrite H.
  destruct (isCompletedL parsed) eqn:E; [cbn; auto|].
  match goal with
  | |- context [calculateProgress ?d ?s ?x] =>
      pose proof (calculateProgress_latch d s x) as L;
      destruct (calculateProgress d s x) as [p st'] eqn:C
  end.
  apply calculateProgress_frame in C as (_ & _ & _ & F4 & F5 & _).
  cbn in *. rewrite F4, F5, L. auto.
Qed.

Lemma loadProgress_local_empty d st :
  localStorage st = None ->
  let st' := loadProgress_local d st in
  intervalsRef st' = intervalsRef st
  /\ lastKnownPositionRef st' = lastKnownPositionRef st
  /\ wasFullyWatchedRef st' = wasFullyWatchedRef st.
Proof.
  intro H. unfold loadProgress_local. cbn. rewrite H. cbn. auto.
Qed.

Lemma loadProgress_resolved_server d skipped localData serverData st :
  useServerData localData serverData st = true ->
  let st' := loadProgress_resolved d skipped localData serverData st in
  seededFromServer serverData st'
  /\ wasFullyWatchedRef st'
     = wasFullyWatchedRef st || reaches d skipped (p_intervals serverData).
Proof.
  intro H. unfold loadProgress_resolved, seededFromServer.
  replace (useServerData localData serverData
             (set_error None (set_serverProgress (Some serverData) st)))
    with true by (rewrite <- H; destruct localData; reflexivity).
  match goal with
  | |- context [calculateProgress ?d ?s ?x] =>
      pose proof (calculateProgress_latch d s x) as L;
      destruct (calculateProgress d s x) as [p st'] eqn:C
  end.
  apply calculateProgress_frame in C as (_ & _ & _ & F4 & F5 & _).
  cbn in *. rewrite F4, F5, L. auto.
Qed.

Lemma loadProgress_resolved_keep d skipped localData serverData st :
  useServerData localData serverData st = false ->
  let st' := loadProgress_resolved d skipped localData serverData st in
  intervalsRef st' = intervalsRef st
  /\ lastKnownPositionRef st' = lastKnownPositionRef st
  /\ wasFullyWatchedRef st' = wasFullyWatchedRef st.
Proof.
  intro H. unfold loadProgress_resolved.
  replace (useServerData localData serverData
             (set_error None (set_serverProgress (Some serverData) st)))
    with false by (rewrite <- H; destruct localData; reflexivity).
  cbn. auto.
Qed.

End HookFacts.

(** ** Further properties of the merge pass *)

Module MergeMore.
Import Num NumFacts Merge MinMax Props MergeFacts More.

Lemma this_inv (x : Qc) : (this (/ x) == / this x)%Q.
Proof. unfold Qcinv. apply this_Q2Qc. Qed.

Lemma this_div (x y : Qc) : (this (x / y) == this x / this y)%Q.
Proof. unfold Qcdiv. rewrite this_mult, this_inv. reflexivity. Qed.

(** *** The sum of the spans *)

Lemma fold_spans_acc l acc :
  fold_left (fun total i => total + (end_ i - start i)) l acc
  = acc + sumSpans l.
Proof.
  unfold sumSpans. revert acc. induction l as [|a l IH]; intro acc; cbn.
  - ring.
  - rewrite (IH (acc + _)), (IH (0 + _)). ring.
Qed.

Lemma sumSpans_cons a l : sumSpans (a :: l) = (end_ a - start a) + sumSpans l.
Proof.
  unfold sumSpans at 1. cbn. rewrite fold_spans_acc. ring.
Qed.

Lemma sumSpans_nonneg l : Forall proper l -> 0 <= sumSpans l.
Proof.
  induction 1 as [|a l Ha _ IH].
  - unfold sumSpans. cbn. qc.
  - rewrite sumSpans_cons. unfold proper in Ha. qc.
Qed.

(** Merged intervals that lie between [lo] and [d] add up to at most
    [d - lo]. *)
Lemma sumSpans_le d l lo :
  lo <= d ->
  StronglySorted next l ->
  Forall (fun a => lo <= start a /\ end_ a <= d /\ proper a) l ->
  sumSpans l <= d - lo.
Proof.
  intros Hlo Hs. revert lo Hlo.
  induction Hs as [|a l Hs IH Ha]; intros lo Hlo Hb.
  - unfold sumSpans. cbn. qc.
  - apply Forall_cons_iff in Hb as [(B1 & B2 & B3) Hb].
    rewrite sumSpans_cons. unfold proper in B3.
    assert (Hl : sumSpans l <= d - end_ a).
    { apply IH; [exact B2|].
      rewrite Forall_forall in *. intros b Hb'.
      destruct (Hb b Hb') as (C1 & C2 & C3).
      destruct (Ha b Hb') as [_ Hap]. unfold apart in Hap.
      repeat split; try assumption. qc. }
    qc.
Qed.

(** *** Spans of the merged intervals *)

Lemma valid_clamp_proper d x :
  0 < d -> valid d x -> 0 <= end_ x -> proper (clamp d x).
Proof.
  unfold valid, proper. intros Hd Hv He.
  apply isValid_iff in Hv as (H1 & H2 & H3 & H4). cbn.
  destruct (max_cases 0 (start x)) as [[? ->] | [? ->]];
  destruct (min_cases d (end_ x)) as [[? ->] | [? ->]]; qc.
Qed.

Lemma mergeFrom_proper d current l :
  proper current -> Forall (fun x => proper (clamp d x)) l ->
  Forall proper (mergeFrom d current l).
Proof.
  revert current. induction l as [|x l IH]; intros current Hc Hl;
    cbn [mergeFrom].
  - constructor; [exact Hc | constructor].
  - apply Forall_cons_iff in Hl as [Hx Hl].
    remember (clamp d x) as c eqn:Ec. clear Ec.
    destruct (leb _ _).
    + apply IH; [|exact Hl]. unfold proper in *. cbn.
      pose proof (le_max_l (end_ current) (end_ c)). qc.
    + constructor; [exact Hc | apply IH; assumption].
Qed.

Lemma mergedIntervals_proper d l :
  0 < d -> Forall (fun x => 0 <= end_ x) l ->
  Forall proper (mergedIntervals d l).
Proof.
  intros Hd He.
  assert (Hs : Forall (fun x => proper (clamp d x)) (sort (validIntervals d l))).
  { eapply Permutation_Forall; [apply sort_perm|].
    pose proof (validIntervals_valid d l) as Hv.
    pose proof (validIntervals_incl _ d l He) as He'.
    rewrite Forall_forall in *. intros x Hx.
    apply valid_clamp_proper; auto. }
  rewrite mergedIntervals_sorted.
  destruct (sort (validIntervals d l)) as [|x rest]; [constructor|].
  apply Forall_cons_iff in Hs as [Hx Hs].
  apply mergeFrom_proper; assumption.
Qed.

Lemma totalWatchedOf_bounds d l :
  0 < d -> Forall (fun x => 0 <= end_ x) l ->
  0 <= totalWatchedOf d l /\ totalWatchedOf d l <= d.
Proof.
  intros Hd He. unfold totalWatchedOf.
  pose proof (mergedIntervals_proper d l Hd He) as Hp.
  split; [apply sumSpans_nonneg, Hp|].
  assert (H : sumSpans (mergedIntervals d l) <= d - 0).
  { apply sumSpans_le; [qc | apply mergedIntervals_next |].
    pose proof (mergedIntervals_within d l) as Hw.
    rewrite Forall_forall in *. intros a Ha.
    destruct (Hw a Ha) as [W1 W2]. auto. }
  qc.
Qed.

Lemma ratio_nonneg (x d : Qc) : 0 <= x -> 0 < d -> 0 <= (x / d) * HUNDRED.
Proof.
  intros Hx Hd. unfold HUNDRED, Qcle in *.
  rewrite this_mult, this_div, !this_Q2Qc in *.
  unfold Qclt in Hd. rewrite this_Q2Qc in Hd.
  apply Qmult_le_0_compat; [|discriminate].
  apply Qmult_le_0_compat; [exact Hx|].
  apply Qinv_le_0_compat, Qlt_le_weak, Hd.
Qed.

Lemma percentageOf_le_100 d l : percentageOf d l <= HUNDRED.
Proof.
  unfold percentageOf.
  destruct (min_cases ((totalWatchedOf d l / d) * HUNDRED) HUNDRED)
    as [[? ->] | [? ->]]; qc.
Qed.

Lemma percentageOf_nonneg d l :
  0 < d -> Forall (fun x => 0 <= end_ x) l -> 0 <= percentageOf d l.
Proof.
  intros Hd He. unfold percentageOf.
  destruct (totalWatchedOf_bounds d l Hd He) as [H0 _].
  pose proof (ratio_nonneg _ d H0 Hd) as Hr.
  destruct (min_cases ((totalWatchedOf d l / d) * HUNDRED) HUNDRED)
    as [[? ->] | [? ->]]; [exact Hr | qc].
Qed.

(** *** What the merged intervals cover *)

Lemma mergeFrom_covers d current l p :
  ascending l ->
  Forall (fun x => start current <= start (clamp d x)) l ->
  covers current p \/ Exists (fun x => covers (clamp d x) p) l ->
  Exists (fun m => covers m p) (mergeFrom d current l).
Proof.
  revert current. induction l as [|x l IH]; intros current Hasc Hge Hc;
    cbn [mergeFrom].
  - destruct Hc as [Hc | Hc]; [constructor; exact Hc | inversion Hc].
  - apply StronglySorted_inv in Hasc as [Hl Hx].
    apply Forall_cons_iff in Hge as [Hcx Hge].
    assert (Hrest : Forall (fun y => start (clamp d x) <= start (clamp d y)) l).
    { eapply Forall_impl; [|exact Hx]. intros y Hy.
      apply clamp_start_mono, Hy. }
    remember (clamp d x) as c eqn:Ec.
    destruct (leb _ _) eqn:E.
    + apply IH; [exact Hl | exact Hge |].
      pose proof (le_max_l (end_ current) (end_ c)) as L1.
      pose proof (le_max_r (end_ current) (end_ c)) as L2.
      destruct Hc as [[C1 C2] | Hc].
      * left. unfold covers. cbn. split; qc.
      * apply Exists_cons in Hc as [[C1 C2] | Hc]; [|right; exact Hc].
        rewrite <- Ec in C1, C2.
        left. unfold covers. cbn. split; qc.
    + destruct Hc as [Hc | Hc]; [apply Exists_cons_hd, Hc|].
      apply Exists_cons_tl. apply IH; [exact Hl | exact Hrest |].
      apply Exists_cons in Hc as [Hc | Hc]; [left | right]; [|exact Hc].
      rewrite <- Ec in Hc. exact Hc.
Qed.

Lemma mergedIntervals_covers d l x p :
  In x l -> valid d x -> covers (clamp d x) p ->
  Exists (fun m => covers m p) (mergedIntervals d l).
Proof.
  intros Hin Hv Hc.
  assert (Hs : In x (sort (validIntervals d l))).
  { eapply Permutation_in; [apply sort_perm|].
    apply filter_In. split; [exact Hin | exact Hv]. }
  rewrite mergedIntervals_sorted.
  pose proof (sort_ascending (validIntervals d l)) as Hasc.
  destruct (sort (validIntervals d l)) as [|y rest]; [destruct Hs|].
  apply StronglySorted_inv in Hasc as [Hl Hy].
  apply mergeFrom_covers; [exact Hl | |].
  - eapply Forall_impl; [|exact Hy]. intros z Hz. apply clamp_start_mono, Hz.
  - destruct Hs as [<- | Hs]; [left; exact Hc|].
    right. apply Exists_exists. eauto.
Qed.

(** Every end point of a merged interval is an end point of a clamped raw
    interval. *)
Lemma mergeFrom_endpoints d (S E : Qc -> Prop) current l :
  S (start current) -> E (end_ current) ->
  Forall (fun x => S (start (clamp d x)) /\ E (end_ (clamp d x))) l ->
  Forall (fun m => S (start m) /\ E (end_ m)) (mergeFrom d current l).
Proof.
  revert current. induction l as [|x l IH]; intros current Hs He Hl;
    cbn [mergeFrom].
  - constructor; [auto | constructor].
  - apply Forall_cons_iff in Hl as [[Sx Ex] Hl].
    remember (clamp d x) as c eqn:Ec. clear Ec.
    destruct (leb _ _).
    + apply IH; [exact Hs | | exact Hl]. cbn.
      destruct (max_cases (end_ current) (end_ c)) as [[_ ->] | [_ ->]];
        assumption.
    + constructor; [auto | apply IH; assumption].
Qed.

Lemma mergedIntervals_endpoints d l m :
  In m (mergedIntervals d l) ->
  (exists x, In x l /\ valid d x /\ start m = start (clamp d x))
  /\ (exists y, In y l /\ valid d y /\ end_ m = end_ (clamp d y)).
Proof.
  set (S := fun s => exists x, In x l /\ valid d x /\ s = start (clamp d x)).
  set (E := fun e => exists y, In y l /\ valid d y /\ e = end_ (clamp d y)).
  assert (Hs : Forall (fun x => S (start (clamp d x)) /\ E (end_ (clamp d x)))
                 (sort (validIntervals d l))).
  { eapply Permutation_Forall; [apply sort_perm|].
    apply Forall_forall. intros x Hx. apply filter_In in Hx as [Hin Hv].
    split; exists x; auto. }
  rewrite mergedIntervals_sorted.
  destruct (sort (validIntervals d l)) as [|y rest]; [intros []|].
  apply Forall_cons_iff in Hs as [[Sy Ey] Hs].
  pose proof (mergeFrom_endpoints d S E (clamp d y) rest Sy Ey Hs) as H.
  rewrite Forall_forall in H. intro Hin. apply (H m Hin).
Qed.

End MergeMore.

(** ** Further properties of the handlers *)

Module HookMore.
Import Num NumFacts MinMax Set_ Hook Props HookFacts More.

(** [calculateProgress] writes three cells and no other. *)
Lemma calculateProgress_only d skipped st p st' :
  calculateProgress d skipped st = (p, st') ->
  st' = set_isCompleted (isCompleted st')
          (set_wasFullyWatchedRef (wasFullyWatchedRef st')
             (set_totalWatchedRef (totalWatchedRef st') st)).
Proof.
  unfold calculateProgress.
  destruct (falsy d); [intros [= <- <-]; destruct st; reflexivity|].
  destruct (wasFullyWatchedRef st) eqn:E;
    [intros [= <- <-]; destruct st; reflexivity|].
  destruct (_ && _); intros [= <- <-]; destruct st; reflexivity.
Qed.

Lemma calculateProgress_keeps d skipped st p st' :
  calculateProgress d skipped st = (p, st') ->
  books st' = books st /\ clocks st' = clocks st /\ outside st' = outside st
  /\ localProgress st' = localProgress st.
Proof.
  intro C. rewrite (calculateProgress_only _ _ _ _ _ C).
  repeat split.
Qed.

Lemma updateUI_keeps d skipped now st :
  books (updateUI d skipped now st) = books st
  /\ outside (updateUI d skipped now st) = outside st
  /\ clocks (updateUI d skipped now st) = (now, lastUpdateTimeRef st)
  /\ wasFullyWatchedRef (updateUI d skipped now st)
     = wasFullyWatchedRef st || reaches d skipped (intervalsRef st).
Proof.
  unfold updateUI.
  pose proof (calculateProgress_latch d skipped st) as L.
  destruct (calculateProgress d skipped st) as [p st'] eqn:C.
  apply calculateProgress_keeps in C as (B & K & O & _).
  unfold books, clocks, outside in *. cbn in *.
  injection B as B1 B2 B3 B4 B5. injection K as K1 K2. injection O as O1 O2.
  rewrite B1, B2, B3, B4, B5, K2, O1, O2, L. auto.
Qed.

Lemma saveCurrentInterval_keeps t st :
  skippedAhead (saveCurrentInterval t st) = skippedAhead st
  /\ lastKnownPositionRef (saveCurrentInterval t st) = lastKnownPositionRef st
  /\ isPlayingRef (saveCurrentInterval t st) = isPlayingRef st
  /\ clocks (saveCurrentInterval t st) = clocks st
  /\ outside (saveCurrentInterval t st) = outside st.
Proof.
  unfold saveCurrentInterval. destruct (currentIntervalRef st); [|auto].
  destruct (leb _ _); auto.
Qed.

Lemma saveToServer_keeps d skipped now t st :
  let st' := saveToServer d skipped now t st in
  intervalsRef st' = intervalsRef (saveCurrentInterval t st)
  /\ currentIntervalRef st' = currentIntervalRef (saveCurrentInterval t st)
  /\ skippedAhead st' = skippedAhead st
  /\ lastKnownPositionRef st' = lastKnownPositionRef st
  /\ isPlayingRef st' = isPlayingRef st
  /\ clocks st' = (lastUIUpdateTimeRef st, now)
  /\ wasFullyWatchedRef st'
     = wasFullyWatchedRef st
       || reaches d skipped (intervalsRef (saveCurrentInterval t st)).
Proof.
  cbv zeta. unfold saveToServer.
  destruct (saveCurrentInterval_keeps t st) as (S1 & S2 & S3 & S4 & _).
  pose proof (saveCurrentInterval_latch t st) as S5.
  pose proof (calculateProgress_latch d skipped (saveCurrentInterval t st)) as L.
  destruct (calculateProgress d skipped (saveCurrentInterval t st))
    as [p st'] eqn:C.
  apply calculateProgress_keeps in C as (B & K & _ & _).
  unfold books, clocks in *. cbn in L.
  injection B as B1 B2 B3 B4 B5. injection K as K1 K2. injection S4 as S4a S4b.
  unfold saveProgress. cbn.
  destruct (currentIntervalRef st') eqn:E; cbn;
    rewrite ?E, B1, B3, B4, B5, K1, L, S1, S2, S3, S4a, S5; rewrite <- B2;
    repeat split; auto.
Qed.

(** *** The interval bookkeeping of [handleTimeUpdate] *)

Lemma isSkip_frame t st st' :
  lastKnownPositionRef st' = lastKnownPositionRef st ->
  isSkip t st' = isSkip t st.
Proof. unfold isSkip. intros ->. reflexivity. Qed.

Lemma zero_span_short (t : Qc) : leb MINIMUM_WATCH_TIME (t - t) = false.
Proof. qc. Qed.

Lemma handleTimeUpdate_books d now t st current :
  isPlayingRef st = true -> d <> 0 ->
  currentIntervalRef st = Some current ->
  let st' := handleTimeUpdate d now t st in
  intervalsRef st'
  = intervalsRef st
    ++ (if closes now t current st then [mkInterval (start current) t] else [])
  /\ currentIntervalRef st'
     = Some (if closes now t current st then mkInterval t t
             else mkInterval (start current) t)
  /\ skippedAhead st' = skippedAhead st || isSkip t st
  /\ lastKnownPositionRef st' = t
  /\ isPlayingRef st' = true.
Proof.
  intros Hp Hd Hc. cbv zeta. unfold handleTimeUpdate, closes.
  apply falsy_false_iff in Hd. rewrite Hp, Hd. cbn [negb orb].
  (* after "Update current interval" and "Check for skips" *)
  set (st2 := checkForSkips t (updateCurrentInterval t st)).
  assert (H2 : intervalsRef st2
               = intervalsRef st
                 ++ (if isSkip t st then [mkInterval (start current) t] else [])
             /\ currentIntervalRef st2
                = Some (if isSkip t st then mkInterval t t
                        else mkInterval (start current) t)
             /\ skippedAhead st2 = skippedAhead st || isSkip t st
             /\ lastKnownPositionRef st2 = lastKnownPositionRef st
             /\ isPlayingRef st2 = true).
  { subst st2. unfold checkForSkips, updateCurrentInterval. rewrite Hc.
    rewrite (isSkip_frame t st (set_currentIntervalRef _ st) eq_refl).
    destruct (isSkip t st); cbn; rewrite ?app_nil_r, ?orb_true_r, ?orb_false_r;
      auto. }
  clearbody st2. destruct H2 as (I2 & C2 & S2 & L2 & P2).
  (* after "Update UI more frequently" *)
  set (st3 := if uiDue now st then updateUI d (skippedAhead st) now st2 else st2).
  assert (H3 : books st3 = books st2).
  { subst st3. destruct (uiDue now st); [apply updateUI_keeps | reflexivity]. }
  clearbody st3. unfold books in H3. injection H3 as I3 C3 S3 L3 P3.
  rewrite I2 in I3. rewrite C2 in C3. rewrite S2 in S3. rewrite L2 in L3.
  rewrite P2 in P3.
  (* after "Save to server less frequently" *)
  destruct (saveDue now st) eqn:Hs; cbn [set_lastKnownPositionRef
    intervalsRef currentIntervalRef skippedAhead lastKnownPositionRef
    isPlayingRef].
  - destruct (saveToServer_keeps d (skippedAhead st) now t st3)
      as (I4 & C4 & S4 & _ & P4 & _).
    rewrite I4, C4, S4, P4, S3, P3.
    unfold saveCurrentInterval. rewrite C3.
    destruct (isSkip t st); cbn [orb andb start end_].
    + rewrite zero_span_short, I3. auto.
    + destruct (leb MINIMUM_WATCH_TIME (t - start current)); cbn;
        rewrite I3, ?app_nil_r; auto.
  - rewrite I3, C3, S3, P3, andb_false_l, orb_false_r. auto.
Qed.

Lemma handleTimeUpdate_early d now t st :
  isPlayingRef st = false \/ d = 0 -> handleTimeUpdate d now t st = st.
Proof.
  intros [H | H]; unfold handleTimeUpdate.
  - rewrite H. reflexivity.
  - apply falsy_iff in H. rewrite H, orb_true_r. reflexivity.
Qed.

(** Without an open interval [handleTimeUpdate] behaves as with the open
    interval [{t, t}]. *)
Lemma handleTimeUpdate_opens d now t st :
  isPlayingRef st = true -> d <> 0 ->
  currentIntervalRef st = None ->
  handleTimeUpdate d now t st
  = handleTimeUpdate d now t
      (set_currentIntervalRef (Some (mkInterval t t)) st).
Proof.
  intros Hp Hd H. unfold handleTimeUpdate, updateCurrentInterval.
  apply falsy_false_iff in Hd. cbn [isPlayingRef set_currentIntervalRef].
  rewrite Hp, Hd, H. reflexivity.
Qed.

Lemma handleTimeUpdate_open d now t st :
  isPlayingRef st = true -> d <> 0 ->
  let st' := handleTimeUpdate d now t st in
  (exists c, currentIntervalRef st' = Some c /\ end_ c = t)
  /\ lastKnownPositionRef st' = t
  /\ isPlayingRef st' = true.
Proof.
  intros Hp Hd. cbv zeta.
  destruct (currentIntervalRef st) as [current|] eqn:Hc.
  - destruct (handleTimeUpdate_books d now t st current Hp Hd Hc)
      as (_ & C & _ & L & P).
    split; [|auto]. eexists. split; [exact C|].
    destruct (closes now t current st); reflexivity.
  - rewrite (handleTimeUpdate_opens d now t st Hp Hd Hc).
    destruct (handleTimeUpdate_books d now t
                (set_currentIntervalRef (Some (mkInterval t t)) st)
                (mkInterval t t) Hp Hd eq_refl)
      as (_ & C & _ & L & P).
    split; [|auto]. eexists. split; [exact C|].
    destruct (closes _ _ _ _); reflexivity.
Qed.

(** *** The cadences of [handleTimeUpdate] *)

Lemma handleTimeUpdate_clocks d now t st :
  isPlayingRef st = true -> d <> 0 ->
  clocks (handleTimeUpdate d now t st)
  = (if uiDue now st then now else lastUIUpdateTimeRef st,
     if saveDue now st then now else lastUpdateTimeRef st).
Proof.
  intros Hp Hd. unfold handleTimeUpdate.
  apply falsy_false_iff in Hd. rewrite Hp, Hd. cbn [negb orb].
  set (st2 := checkForSkips t (updateCurrentInterval t st)).
  assert (K2 : clocks st2 = clocks st).
  { subst st2. unfold checkForSkips, updateCurrentInterval.
    destruct (currentIntervalRef st); destruct (isSkip _ _); reflexivity. }
  clearbody st2.
  set (st3 := if uiDue now st then updateUI d (skippedAhead st) now st2 else st2).
  assert (K3 : clocks st3
               = (if uiDue now st then now else lastUIUpdateTimeRef st,
                  lastUpdateTimeRef st)).
  { subst st3. unfold clocks in *. injection K2 as K2a K2b.
    destruct (uiDue now st).
    - destruct (updateUI_keeps d (skippedAhead st) now st2) as (_ & _ & K & _).
      unfold clocks in K. rewrite K, K2b. reflexivity.
    - rewrite K2a, K2b. reflexivity. }
  clearbody st3. unfold clocks in *. injection K3 as K3a K3b.
  destruct (saveDue now st).
  - destruct (saveToServer_keeps d (skippedAhead st) now t st3)
      as (_ & _ & _ & _ & _ & K & _).
    unfold clocks in K. cbn. injection K as Ka Kb. rewrite Ka, Kb, K3a.
    reflexivity.
  - cbn. rewrite K3a, K3b. reflexivity.
Qed.

Lemma handleTimeUpdate_not_due_again d now t st :
  isPlayingRef st = true -> d <> 0 ->
  uiDue now (handleTimeUpdate d now t st) = false
  /\ saveDue now (handleTimeUpdate d now t st) = false.
Proof.
  intros Hp Hd.
  pose proof (handleTimeUpdate_clocks d now t st Hp Hd) as K.
  unfold clocks in K. injection K as K1 K2.
  unfold uiDue, saveDue in *. rewrite K1, K2. split.
  - destruct (UI_UPDATE_INTERVAL <=? now - lastUIUpdateTimeRef st)%Z eqn:E;
      [rewrite Z.sub_diag; reflexivity | exact E].
  - destruct (PROGRESS_UPDATE_INTERVAL <=? now - lastUpdateTimeRef st)%Z eqn:E;
      [rewrite Z.sub_diag; reflexivity | exact E].
Qed.

Lemma set_currentIntervalRef_same st c :
  currentIntervalRef st = Some c -> set_currentIntervalRef (Some c) st = st.
Proof. destruct st. cbn. intros ->. reflexivity. Qed.

Lemma set_lastKnownPositionRef_same st t :
  lastKnownPositionRef st = t -> set_lastKnownPositionRef t st = st.
Proof. destruct st. cbn. intros ->. reflexivity. Qed.

Lemma isSkip_same t st : lastKnownPositionRef st = t -> isSkip t st = false.
Proof.
  intro H. unfold isSkip, abs. rewrite H.
  destruct (leb 0 (t - t)) eqn:E; qc.
Qed.

(** *** The invariants of a session *)


Lemma handlePause_keeps d now t st :
  let st' := handlePause d now t st in
  isPlayingRef st' = false
  /\ currentIntervalRef st' = None
  /\ skippedAhead st' = skippedAhead st
  /\ lastKnownPositionRef st' = lastKnownPositionRef st
  /\ clocks st' = clocks st.
Proof.
  cbv zeta. unfold handlePause. cbn [currentIntervalRef set_isPlayingRef].
  destruct (currentIntervalRef st) as [current|] eqn:Hc; [|cbn; rewrite Hc; auto].
  cbn [start end_].
  destruct (leb MINIMUM_WATCH_TIME (t - start current)); [|cbn; auto].
  match goal with
  | |- context [calculateProgress ?d ?s ?x] =>
      destruct (calculateProgress d s x) as [p st'] eqn:C
  end.
  apply calculateProgress_keeps in C as (B & K & _ & _).
  unfold books, clocks in *. cbn in *.
  injection B as _ _ B3 B4 B5. injection K as K1 K2.
  rewrite B3, B4, B5, K1, K2. auto.
Qed.

Lemma handlePause_intervals d now t st :
  intervalsRef (handlePause d now t st)
  = intervalsRef st
    ++ match currentIntervalRef st with
       | Some current => pauseRecords t current
       | None => []
       end.
Proof.
  unfold handlePause, pauseRecords.
  cbn [currentIntervalRef set_isPlayingRef].
  destruct (currentIntervalRef st) as [current|] eqn:Hc;
    [|cbn; rewrite app_nil_r; reflexivity].
  cbn [start end_].
  destruct (leb MINIMUM_WATCH_TIME (t - start current));
    [|cbn; rewrite app_nil_r; reflexivity].
  match goal with
  | |- context [calculateProgress ?d ?s ?x] =>
      destruct (calculateProgress d s x) as [p st'] eqn:C
  end.
  apply calculateProgress_keeps in C as (B & _).
  unfold books in B. cbn in *. injection B as B1 _ _ _ _. exact B1.
Qed.



Lemma handleTimeUpdate_skipped d now t st :
  skippedAhead st = true -> skippedAhead (handleTimeUpdate d now t st) = true.
Proof.
  intro Hs.
  destruct (isPlayingRef st) eqn:Hp;
    [|rewrite handleTimeUpdate_early; [exact Hs | left; exact Hp]].
  destruct (eqb d 0) eqn:Hd;
    [apply eqb_eq in Hd; rewrite handleTimeUpdate_early; [exact Hs | right; exact Hd]|].
  apply eqb_neq in Hd.
  destruct (currentIntervalRef st) as [current|] eqn:Hc.
  - destruct (handleTimeUpdate_books d now t st current Hp Hd Hc)
      as (_ & _ & S & _). rewrite S, Hs. reflexivity.
  - rewrite (handleTimeUpdate_opens d now t st Hp Hd Hc).
    destruct (handleTimeUpdate_books d now t
                (set_currentIntervalRef (Some (mkInterval t t)) st)
                (mkInterval t t) Hp Hd eq_refl)
      as (_ & _ & S & _). rewrite S. cbn. rewrite Hs. reflexivity.
Qed.

Lemma handleTimeUpdate_appends d now t st :
  exists suffix,
    intervalsRef (handleTimeUpdate d now t st) = intervalsRef st ++ suffix.
Proof.
  destruct (isPlayingRef st) eqn:Hp;
    [|exists []; rewrite handleTimeUpdate_early, app_nil_r; auto].
  destruct (eqb d 0) eqn:Hd;
    [apply eqb_eq in Hd; exists [];
     rewrite handleTimeUpdate_early, app_nil_r; auto|].
  apply eqb_neq in Hd.
  destruct (currentIntervalRef st) as [current|] eqn:Hc.
  - destruct (handleTimeUpdate_books d now t st current Hp Hd Hc) as (I & _).
    eexists. exact I.
  - rewrite (handleTimeUpdate_opens d now t st Hp Hd Hc).
    destruct (handleTimeUpdate_books d now t
                (set_currentIntervalRef (Some (mkInterval t t)) st)
                (mkInterval t t) Hp Hd eq_refl) as (I & _).
    eexists. exact I.
Qed.

Lemma handlePlay_resume now t st :
  t <> 0 \/ lastKnownPositionRef st <= 0 \/ wasFullyWatchedRef st = true ->
  handlePlay now t st
  = set_currentIntervalRef (Some (mkInterval t t)) (set_isPlayingRef true st).
Proof.
  intro H. unfold handlePlay.
  cbn [lastKnownPositionRef wasFullyWatchedRef set_isPlayingRef].
  replace (eqb t 0 && ltb 0 (lastKnownPositionRef st)
           && negb (wasFullyWatchedRef st)) with false; [reflexivity|].
  symmetry. destruct H as [H | [H | H]].
  - apply eqb_neq in H. rewrite H. reflexivity.
  - apply ltb_ge in H. rewrite H, andb_false_r. reflexivity.
  - rewrite H. apply andb_false_r.
Qed.

Lemma outside_quiet st0 st : quiet st0 st -> outside st = outside st0.
Proof. unfold quiet, outside. intros (-> & -> & _). reflexivity. Qed.

(** *** The flags and calls of [loadProgress] *)

Lemma loadProgress_local_outside d st :
  calls (loadProgress_local d st) = calls st ++ [Get]
  /\ localStorage (loadProgress_local d st) = localStorage st.
Proof.
  unfold loadProgress_local.
  cbn [localStorage set_isLoading set_isInitialized].
  destruct (localStorage st) as [parsed|] eqn:E; [|cbn; rewrite E; auto].
  destruct (isCompletedL parsed); [cbn; rewrite E; auto|].
  match goal with
  | |- context [calculateProgress ?d ?s ?x] =>
      destruct (calculateProgress d s x) as [p st'] eqn:C
  end.
  apply calculateProgress_keeps in C as (_ & _ & O & _).
  unfold outside in O. cbn in *. injection O as O1 O2.
  rewrite O1, O2, E. auto.
Qed.

Lemma loadProgress_resolved_flags d skipped localData serverData st :
  isLoading (loadProgress_resolved d skipped localData serverData st) = false
  /\ isInitialized (loadProgress_resolved d skipped localData serverData st)
     = true
  /\ error (loadProgress_resolved d skipped localData serverData st) = None
  /\ calls (loadProgress_resolved d skipped localData serverData st)
     = calls st
  /\ localStorage (loadProgress_resolved d skipped localData serverData st)
     = localStorage st.
Proof.
  unfold loadProgress_resolved.
  destruct (useServerData _ _ _); [|cbn; auto].
  match goal with
  | |- context [calculateProgress ?d ?s ?x] =>
      destruct (calculateProgress d s x) as [p st'] eqn:C
  end.
  rewrite (calculateProgress_only _ _ _ _ _ C). cbn. auto.
Qed.

(** *** The latch and the remote write of [handleTimeUpdate] *)

(** The accumulated intervals when the UI cadence is looked at: after the
    skip check. *)
Lemma handleTimeUpdate_latch d now t st current :
  isPlayingRef st = true -> d <> 0 ->
  currentIntervalRef st = Some current ->
  let st' := handleTimeUpdate d now t st in
  wasFullyWatchedRef st'
  = wasFullyWatchedRef st
    || (uiDue now st
        && reaches d (skippedAhead st)
             (intervalsRef st
              ++ (if isSkip t st then [mkInterval (start current) t] else [])))
    || (saveDue now st && reaches d (skippedAhead st) (intervalsRef st')).
Proof.
  intros Hp Hd Hc. cbv zeta.
  destruct (handleTimeUpdate_books d now t st current Hp Hd Hc) as (I & _).
  revert I. unfold handleTimeUpdate, closes.
  apply falsy_false_iff in Hd. rewrite Hp, Hd. cbn [negb orb].
  set (st2 := checkForSkips t (updateCurrentInterval t st)).
  assert (H2 : intervalsRef st2
               = intervalsRef st
                 ++ (if isSkip t st then [mkInterval (start current) t] else [])
             /\ wasFullyWatchedRef st2 = wasFullyWatchedRef st).
  { subst st2. rewrite checkForSkips_latch, updateCurrentInterval_latch.
    split; [|reflexivity].
    unfold checkForSkips, updateCurrentInterval. rewrite Hc.
    rewrite (isSkip_frame t st (set_currentIntervalRef _ st) eq_refl).
    destruct (isSkip t st); cbn; rewrite ?app_nil_r; reflexivity. }
  clearbody st2. destruct H2 as (I2 & L2).
  set (st3 := if uiDue now st then updateUI d (skippedAhead st) now st2 else st2).
  assert (L3 : wasFullyWatchedRef st3
               = wasFullyWatchedRef st
                 || (uiDue now st
                     && reaches d (skippedAhead st) (intervalsRef st2))).
  { subst st3. destruct (uiDue now st); cbn [andb].
    - destruct (updateUI_keeps d (skippedAhead st) now st2) as (_ & _ & _ & L).
      rewrite L, L2. reflexivity.
    - rewrite orb_false_r. exact L2. }
  clearbody st3. rewrite I2 in L3.
  destruct (saveDue now st); cbn [set_lastKnownPositionRef intervalsRef
    wasFullyWatchedRef andb]; intro I.
  - destruct (saveToServer_keeps d (skippedAhead st) now t st3)
      as (I4 & _ & _ & _ & _ & _ & L4).
    rewrite L4, <- I4, L3. reflexivity.
  - rewrite orb_false_r. exact L3.
Qed.

Lemma handleTimeUpdate_post d now t st current :
  isPlayingRef st = true -> d <> 0 ->
  saveDue now st = true ->
  currentIntervalRef st = Some current ->
  calls (handleTimeUpdate d now t st)
  = calls st
    ++ [Post (if closes now t current st then mkInterval t t
              else mkInterval (start current) t) t].
Proof.
  intros Hp Hd Hs Hc.
  destruct (handleTimeUpdate_books d now t st current Hp Hd Hc) as (_ & C & _).
  revert C. unfold handleTimeUpdate.
  apply falsy_false_iff in Hd. rewrite Hp, Hd, Hs. cbn [negb orb].
  match goal with
  | |- context [saveToServer ?a ?b ?c ?e ?x] => assert (Hq : quiet st x)
  end.
  { destruct (uiDue now st); [apply updateUI_quiet|];
      apply checkForSkips_quiet, updateCurrentInterval_quiet. }
  apply (saveToServer_calls d (skippedAhead st) now t) in Hq.
  destruct Hq as (_ & c & H1 & H2).
  cbn [currentIntervalRef calls set_lastKnownPositionRef].
  rewrite H1, H2. intros [= ->]. reflexivity.
Qed.

End HookMore.

(** ** The socket and the video list *)

Module ApiFacts.
Import Api.

Lemma live_app w w' acc : live (w ++ w') acc = live w' (live w acc).
Proof.
  revert acc. induction w as [|x w IH]; intro acc; [reflexivity|].
  destruct x; cbn; apply IH.
Qed.

Lemma emitsOnLive_app w w' acc :
  emitsOnLive (w ++ w') acc
  = emitsOnLive w acc && emitsOnLive w' (live w acc).
Proof.
  revert acc. induction w as [|x w IH]; intro acc; [reflexivity|].
  destruct x; cbn; rewrite IH; [reflexivity | reflexivity |].
  rewrite andb_assoc. reflexivity.
Qed.

Lemma apply_sound op n : sound n -> sound (apply op n).
Proof.
  unfold sound. intros [L E].
  destruct op as [| | data]; cbn [apply];
    unfold initializeSocket, disconnectSocket, emitProgressUpdate;
    destruct (socket n) as [s|] eqn:Hs; cbn [socket wire]; rewrite ?Hs;
    try (split; assumption);
    rewrite live_app, emitsOnLive_app, L, E; cbn.
  - auto.
  - rewrite Nat.eqb_refl. auto.
  - rewrite Nat.eqb_refl. auto.
Qed.

Lemma run_sound ops n : sound n -> sound (run ops n).
Proof.
  revert n. induction ops as [|op ops IH]; intros n H; [exact H|].
  apply IH, apply_sound, H.
Qed.

End ApiFacts.

Module AppFacts.
Import App.

Lemma find_map_same (f : Video -> bool) (g : Video -> Video) l :
  (forall v, f (g v) = f v) ->
  find f (map g l) = option_map g (find f l).
Proof.
  intro H. induction l as [|v l IH]; [reflexivity|].
  cbn. rewrite H. destruct (f v); [reflexivity | exact IH].
Qed.

Lemma write_ids videoId p c st :
  map id (videos (write videoId p c st)) = map id (videos st).
Proof.
  unfold write. cbn. rewrite map_map. apply map_ext.
  intro v. destruct (String.eqb (id v) videoId); reflexivity.
Qed.

Lemma write_shows videoId p c st v :
  In v (videos (write videoId p c st)) -> id v = videoId ->
  progress v = p /\ isCompleted v = c.
Proof.
  unfold write. cbn. intros Hin Hid.
  apply in_map_iff in Hin as (v0 & E & _).
  destruct (String.eqb (id v0) videoId) eqn:M.
  - subst v. cbn. auto.
  - subst v. apply String.eqb_neq in M. contradiction.
Qed.

Lemma write_others videoId p c st i v :
  nth_error (videos st) i = Some v -> id v <> videoId ->
  nth_error (videos (write videoId p c st)) i = Some v.
Proof.
  unfold write. cbn. intros Hn Hid.
  rewrite nth_error_map, Hn. cbn.
  apply String.eqb_neq in Hid. rewrite Hid. reflexivity.
Qed.

Lemma write_stored videoId p c st :
  stored (write videoId p c st) videoId = Some (mkSaved p c)
  /\ forall key, key <> videoId ->
       stored (write videoId p c st) key = stored st key.
Proof.
  unfold write. cbn. rewrite String.eqb_refl. split; [reflexivity|].
  intros key H. apply String.eqb_neq in H. rewrite H. reflexivity.
Qed.

Lemma write_find videoId p c st v :
  find (fun v => String.eqb (id v) videoId) (videos st) = Some v ->
  find (fun v => String.eqb (id v) videoId) (videos (write videoId p c st))
  = Some (withProgress p c v).
Proof.
  intro H. unfold write. cbn.
  rewrite find_map_same.
  - rewrite H. cbn. apply find_some in H as [_ M]. rewrite M. reflexivity.
  - intro v0. destruct (String.eqb (id v0) videoId) eqn:M; cbn; rewrite ?M;
      reflexivity.
Qed.

(** Writing the same values a second time changes nothing. *)
Lemma write_write videoId p c st :
  videos (write videoId p c (write videoId p c st))
  = videos (write videoId p c st)
  /\ currentVideo (write videoId p c (write videoId p c st))
     = currentVideo (write videoId p c st)
  /\ forall key,
       stored (write videoId p c (write videoId p c st)) key
       = stored (write videoId p c st) key.
Proof.
  unfold write. cbn. split; [|split].
  - rewrite map_map. apply map_ext. intro v.
    destruct (String.eqb (id v) videoId) eqn:M; cbn; rewrite M; reflexivity.
  - destruct (String.eqb (id (currentVideo st)) videoId) eqn:M; cbn; rewrite M;
      reflexivity.
  - intro key. destruct (String.eqb key videoId); reflexivity.
Qed.

End AppFacts.

(** ** [formatDuration] *)

Module FormatFacts.
Import Num NumFacts MergeMore Format.

Lemma Qfloor_unique (z : Z) (x : Q) :
  (inject_Z z <= x)%Q -> (x < inject_Z (z + 1))%Q -> Qfloor x = z.
Proof.
  intros H1 H2.
  pose proof (Qfloor_le x) as F1. pose proof (Qlt_floor x) as F2.
  assert (A : (z < Qfloor x + 1)%Z)
    by (rewrite Zlt_Qlt; eapply Qle_lt_trans; eassumption).
  assert (B : (Qfloor x < z + 1)%Z)
    by (rewrite Zlt_Qlt; eapply Qle_lt_trans; eassumption).
  lia.
Qed.

Lemma this_ofZ (z : Z) : (this (ofZ z) == inject_Z z)%Q.
Proof. unfold ofZ. apply this_Q2Qc. Qed.

Lemma minutes_bounds (seconds : Qc) :
  0 <= seconds ->
  (inject_Z 60 * inject_Z (minutes seconds) <= this seconds)%Q
  /\ (this seconds < inject_Z 60 * inject_Z (minutes seconds) + inject_Z 60)%Q
  /\ (0 <= minutes seconds)%Z.
Proof.
  intro H0. unfold minutes, floor.
  assert (E : (this (seconds / Q2Qc 60) == this seconds / inject_Z 60)%Q)
    by (rewrite this_div, this_Q2Qc; reflexivity).
  rewrite (Qfloor_comp _ _ E).
  set (y := (this seconds / inject_Z 60)%Q).
  assert (Hy : (this seconds == inject_Z 60 * y)%Q)
    by (unfold y; field; discriminate).
  pose proof (Qfloor_le y) as F1. pose proof (Qlt_floor y) as F2.
  rewrite inject_Z_plus in F2.
  unfold Qcle in H0. rewrite this_Q2Qc in H0.
  clearbody y.
  change (inject_Z 60) with (60 # 1)%Q in *.
  change (inject_Z 1) with (1 # 1)%Q in *.
  repeat split; try lra.
  assert (Hy0 : (0 <= y)%Q) by lra.
  apply Qfloor_resp_le in Hy0. exact Hy0.
Qed.

Lemma trunc_nonneg (x : Qc) : 0 <= x -> trunc x = Qfloor x.
Proof. intro H. unfold trunc. apply leb_le in H. rewrite H. reflexivity. Qed.

Lemma ratio_60_nonneg (seconds : Qc) : 0 <= seconds -> 0 <= seconds / Q2Qc 60.
Proof.
  intro H. unfold Qcle in *. rewrite this_div, !this_Q2Qc in *.
  apply Qmult_le_0_compat; [exact H | discriminate].
Qed.

Lemma this_rem (seconds : Qc) :
  0 <= seconds ->
  (this (rem seconds (Q2Qc 60))
   == this seconds - inject_Z 60 * inject_Z (minutes seconds))%Q.
Proof.
  intro H. unfold rem.
  rewrite (trunc_nonneg _ (ratio_60_nonneg seconds H)).
  rewrite this_minus, this_mult, this_ofZ, this_Q2Qc. reflexivity.
Qed.

Lemma remainingSeconds_spec (seconds : Qc) :
  0 <= seconds ->
  (0 <= remainingSeconds seconds < 60)%Z
  /\ (60 * minutes seconds + remainingSeconds seconds
      = Qfloor seconds)%Z.
Proof.
  intro H.
  destruct (minutes_bounds seconds H) as (B1 & B2 & _).
  set (m := minutes seconds) in *.
  assert (E : remainingSeconds seconds = (Qfloor seconds - 60 * m)%Z).
  { unfold remainingSeconds, floor. rewrite (Qfloor_comp _ _ (this_rem seconds H)).
    fold m. apply Qfloor_unique.
    - pose proof (Qfloor_le seconds) as F.
      unfold Zminus. rewrite inject_Z_plus, inject_Z_opp, inject_Z_mult.
      change (inject_Z 60) with (60 # 1)%Q in *. lra.
    - pose proof (Qlt_floor seconds) as F.
      unfold Zminus. rewrite !inject_Z_plus, inject_Z_opp, inject_Z_mult.
      rewrite inject_Z_plus in F.
      change (inject_Z 60) with (60 # 1)%Q in *.
      change (inject_Z 1) with (1 # 1)%Q in *. lra. }
  rewrite E. split; [|lia].
  pose proof (Qfloor_le seconds) as F1. pose proof (Qlt_floor seconds) as F2.
  assert (A : (60 * m < Qfloor seconds + 1)%Z).
  { rewrite Zlt_Qlt, inject_Z_mult. eapply Qle_lt_trans; eassumption. }
  assert (B : (Qfloor seconds < 60 * m + 60)%Z).
  { rewrite Zlt_Qlt, inject_Z_plus, inject_Z_mult.
    eapply Qle_lt_trans; eassumption. }
  lia.
Qed.

Lemma padStart2_twoDigits (r : Z) :
  (0 <= r < 60)%Z -> padStart2 (toString r) = twoDigits r.
Proof.
  intro H.
  assert (A : forallb
                (fun n => String.eqb (padStart2 (toString (Z.of_nat n)))
                            (twoDigits (Z.of_nat n)))
                (seq 0 60) = true) by (vm_compute; reflexivity).
  rewrite forallb_forall in A.
  specialize (A (Z.to_nat r)).
  rewrite Z2Nat.id in A by lia.
  apply String.eqb_eq, A, in_seq. lia.
Qed.

End FormatFacts.

(** ** The hook with its start-up effect *)

Module SessionFacts.
Import Num NumFacts Set_ Hook Props HookFacts More HookMore Session.

Lemma plain_handler ev :
  plain ev = true -> exists e, ev = Handler e /\ restarts e = false.
Proof.
  destruct ev as [e | d | i r | i]; try discriminate.
  destruct e; cbn; try discriminate; intro H; eexists; split;
    try reflexivity.
  cbn. apply negb_true_iff, H.
Qed.

(** *** What one handler call keeps *)


Lemma handle_skipped d e st :
  restarts e = false -> skippedAhead st = true ->
  skippedAhead (handle d e st) = true.
Proof.
  intros Hr Hs.
  destruct e as [now t | now t | now t | now | now response |];
    try discriminate; cbn [handle restarts] in *.
  - rewrite handlePlay_resume; [exact Hs | left; apply eqb_neq, Hr].
  - destruct (handlePause_keeps d now t st) as (_ & _ & S & _). congruence.
  - apply handleTimeUpdate_skipped, Hs.
  - exact Hs.
  - exact Hs.
Qed.

Lemma handle_appends d e st :
  restarts e = false ->
  exists suffix, intervalsRef (handle d e st) = intervalsRef st ++ suffix.
Proof.
  intro Hr.
  destruct e as [now t | now t | now t | now | now response |];
    try discriminate; cbn [handle restarts] in *.
  - exists []. rewrite handlePlay_resume, app_nil_r;
      [reflexivity | left; apply eqb_neq, Hr].
  - eexists. apply handlePause_intervals.
  - apply handleTimeUpdate_appends.
  - exists []. cbn. rewrite app_nil_r. reflexivity.
  - exists []. cbn. rewrite app_nil_r. reflexivity.
Qed.


(** *** What the effect and its answers keep *)

Lemma loadProgress_local_skipped d st :
  skippedAhead (loadProgress_local d st) = skippedAhead st.
Proof.
  unfold loadProgress_local.
  cbn [localStorage set_isLoading set_isInitialized].
  destruct (localStorage st) as [parsed|]; [|reflexivity].
  destruct (isCompletedL parsed); [reflexivity|].
  match goal with
  | |- context [calculateProgress ?d ?s ?x] =>
      destruct (calculateProgress d s x) as [p st'] eqn:C
  end.
  apply calculateProgress_keeps in C as (B & _).
  unfold books in B. injection B as _ _ B3 _ _. cbn. rewrite B3. reflexivity.
Qed.







(** *** Between two runs of the effect *)

Lemma step_plain_same ev s :
  plain ev = true ->
  skippedAhead (hook (step ev s)) = skippedAhead (hook s) ->
  loads (step ev s) = loads s
  /\ duration (step ev s) = duration s
  /\ exists suffix,
       intervalsRef (hook (step ev s)) = intervalsRef (hook s) ++ suffix.
Proof.
  intros Hp Hs. destruct (plain_handler ev Hp) as (e & -> & Hr).
  cbn [step] in *. unfold render in *. cbn [hook duration] in *.
  replace (eqb (duration s) (duration s)) with true in *
    by (symmetry; apply eqb_eq; reflexivity).
  rewrite andb_true_r in *.
  destruct (Bool.eqb (skippedAhead (handle (duration s) e (hook s)))
              (skippedAhead (hook s))) eqn:E.
  - cbn. split; [reflexivity|]. split; [reflexivity|].
    apply handle_appends, Hr.
  - exfalso. unfold startLoad in Hs. cbn [hook] in Hs.
    rewrite loadProgress_local_skipped in Hs.
    rewrite Hs, Bool.eqb_reflx in E. discriminate.
Qed.

Lemma step_plain_skipped ev s :
  plain ev = true -> skippedAhead (hook s) = true ->
  skippedAhead (hook (step ev s)) = true.
Proof.
  intros Hp Hs. destruct (plain_handler ev Hp) as (e & -> & Hr).
  cbn [step]. unfold render. cbn [hook duration].
  pose proof (handle_skipped (duration s) e (hook s) Hr Hs) as H.
  destruct (_ && _); [exact H|].
  unfold startLoad. cbn [hook]. rewrite loadProgress_local_skipped. exact H.
Qed.

Lemma run_plain_skipped events s :
  forallb plain events = true -> skippedAhead (hook s) = true ->
  skippedAhead (hook (run events s)) = true.
Proof.
  revert s. induction events as [|ev events IH]; intros s Hp Hs; [exact Hs|].
  cbn in Hp. apply andb_true_iff in Hp as [Hev Hp].
  apply IH; [exact Hp|]. apply step_plain_skipped; assumption.
Qed.

End SessionFacts.

(** * Part III: the claims *)

Import Num NumFacts MinMax Set_ Props MergeFacts HookFacts.

(** Closes a closed goal on intervals, numbers or states by evaluation. *)
Ltac by_eval :=
  first
    [ apply MergeFacts.intervals_eqb_eq; vm_compute; reflexivity
    | apply MergeFacts.intervals_eqb_neq; vm_compute; reflexivity
    | apply MergeFacts.interval_eqb_eq; vm_compute; reflexivity
    | apply eqb_eq; vm_compute; reflexivity
    | apply eqb_neq; vm_compute; reflexivity
    | apply leb_le; vm_compute; reflexivity
    | apply ltb_lt; vm_compute; reflexivity
    | vm_compute; reflexivity ].

(** ** The merge pass *)

(** C9.  For every raw interval list and every duration [d > 0], the merged
    intervals are ascending by [start], pairwise disjoint, and each begins
    more than the merge tolerance of 0.1 after the end of the one before
    it. *)
Theorem merged_ascending_disjoint_separated (d : Qc) (raw : list IInterval) :
  0 < d ->
  ascending (Merge.mergedIntervals d raw)
  /\ pairwiseDisjoint (Merge.mergedIntervals d raw)
  /\ separated (Merge.mergedIntervals d raw).
Proof.
  intros _. split; [|split].
  - apply mergedIntervals_ascending.
  - apply StronglySorted_FOP.
    eapply StronglySorted_impl; [|apply mergedIntervals_apart].
    exact apart_disjoint.
  - apply StronglySorted_Sorted, mergedIntervals_apart.
Qed.

Lemma merged_ascending_disjoint_separated_witness :
  let raw := [iv 32 60; iv 0 30; iv (601 # 20) (311 # 10); iv 70 (141 # 2)] in
  0 < Q2Qc 100
  /\ Merge.mergedIntervals (Q2Qc 100) raw = [iv 0 (311 # 10); iv 32 60]
  /\ ascending (Merge.mergedIntervals (Q2Qc 100) raw)
  /\ pairwiseDisjoint (Merge.mergedIntervals (Q2Qc 100) raw)
  /\ separated (Merge.mergedIntervals (Q2Qc 100) raw).
Proof.
  cbv zeta. split; [reflexivity|]. split; [by_eval|].
  apply (merged_ascending_disjoint_separated (Q2Qc 100)). reflexivity.
Defined.

(** C7, as the code has it.  For every duration [d > 0] and every raw list
    whose intervals lie within the video ([0 <= start] and [end <= d]),
    running the pass on its own output gives the same merged intervals, the
    same total and the same percentage. *)
Theorem merge_idempotent_within_video (d : Qc) (raw : list IInterval) :
  0 < d ->
  Forall (withinVideo d) raw ->
  let merged := Merge.mergedIntervals d raw in
  Merge.mergedIntervals d merged = merged
  /\ Merge.totalWatchedOf d merged = Merge.totalWatchedOf d raw
  /\ Merge.percentageOf d merged = Merge.percentageOf d raw.
Proof.
  intros _ Hw merged.
  assert (E : Merge.mergedIntervals d merged = merged)
    by (apply mergedIntervals_fixed, mergedIntervals_valid, Hw).
  unfold Merge.percentageOf, Merge.totalWatchedOf. rewrite E. auto.
Qed.

Lemma merge_idempotent_within_video_witness :
  let raw := [iv 32 60; iv 0 30; iv (601 # 20) 40] in
  let merged := Merge.mergedIntervals (Q2Qc 100) raw in
  Merge.mergedIntervals (Q2Qc 100) merged = merged
  /\ Merge.totalWatchedOf (Q2Qc 100) merged = Merge.totalWatchedOf (Q2Qc 100) raw
  /\ Merge.percentageOf (Q2Qc 100) merged = Merge.percentageOf (Q2Qc 100) raw.
Proof.
  apply (merge_idempotent_within_video (Q2Qc 100)); [reflexivity|].
  repeat constructor; vm_compute; discriminate.
Defined.

(** C7 fails as stated: with [d = 10] the raw interval [{9.5, 10.5}] passes
    the filter and is clamped to [{9.5, 10}], which is shorter than
    [MINIMUM_WATCH_TIME]; the second pass filters it out. *)
Lemma merge_not_idempotent_beyond_duration :
  let d := Q2Qc 10 in
  let raw := [iv (19 # 2) (21 # 2)] in
  0 < d
  /\ Merge.mergedIntervals d raw = [iv (19 # 2) 10]
  /\ Merge.mergedIntervals d (Merge.mergedIntervals d raw) = []
  /\ Merge.mergedIntervals d (Merge.mergedIntervals d raw)
     <> Merge.mergedIntervals d raw
  /\ Merge.totalWatchedOf d (Merge.mergedIntervals d raw)
     <> Merge.totalWatchedOf d raw
  /\ Merge.percentageOf d (Merge.mergedIntervals d raw)
     <> Merge.percentageOf d raw.
Proof. cbv zeta. repeat split; by_eval. Qed.

(** C8, as the code has it.  For every duration [d > 0] and every two
    arrangements of a raw list in which no interval ends before position 0,
    the pass gives the same merged intervals, the same total and the same
    percentage. *)
Theorem merge_order_independent (d : Qc) (raw raw' : list IInterval) :
  0 < d ->
  Forall (fun x => 0 <= end_ x) raw ->
  Permutation raw raw' ->
  Merge.mergedIntervals d raw = Merge.mergedIntervals d raw'
  /\ Merge.totalWatchedOf d raw = Merge.totalWatchedOf d raw'
  /\ Merge.percentageOf d raw = Merge.percentageOf d raw'.
Proof.
  intros Hd He Hp.
  pose proof (mergedIntervals_perm d raw raw' Hd He Hp) as E.
  unfold Merge.percentageOf, Merge.totalWatchedOf. rewrite E. auto.
Qed.

Lemma merge_order_independent_witness :
  let raw := [iv 32 60; iv 0 30; iv 0 10] in
  let raw' := [iv 0 30; iv 32 60; iv 0 10] in
  Merge.mergedIntervals (Q2Qc 100) raw = Merge.mergedIntervals (Q2Qc 100) raw'
  /\ Merge.totalWatchedOf (Q2Qc 100) raw = Merge.totalWatchedOf (Q2Qc 100) raw'
  /\ Merge.percentageOf (Q2Qc 100) raw = Merge.percentageOf (Q2Qc 100) raw'.
Proof.
  apply (merge_order_independent (Q2Qc 100)).
  - reflexivity.
  - repeat constructor; vm_compute; discriminate.
  - apply perm_swap.
Defined.

(** C8 fails as stated: with [d = 100] the raw intervals [{-5, -2}] and
    [{-5, 3}] pass the filter and are clamped to [{0, -2}] and [{0, 3}].
    In this order the second does not reach the first and both are kept; in
    the other order the second is absorbed. *)
Lemma merge_order_dependent_before_zero :
  let d := Q2Qc 100 in
  let raw := [iv (-5) (-2); iv (-5) 3] in
  let raw' := [iv (-5) 3; iv (-5) (-2)] in
  0 < d
  /\ Permutation raw raw'
  /\ Merge.mergedIntervals d raw = [iv 0 (-2); iv 0 3]
  /\ Merge.mergedIntervals d raw' = [iv 0 3]
  /\ Merge.mergedIntervals d raw <> Merge.mergedIntervals d raw'
  /\ Merge.totalWatchedOf d raw = Q2Qc 1
  /\ Merge.totalWatchedOf d raw' = Q2Qc 3.
Proof.
  cbv zeta. split; [reflexivity|]. split; [apply perm_swap|].
  repeat split; by_eval.
Qed.

(** ** The completion latch *)

(** C2, on the code.  Playback starts at 0 and reaches 0.5; the next sample,
    at a UI tick, is at 99.9.  The call finds the skip and sets the skip
    flag, and closes [{0, 99.9}]; [calculateProgress] then reads the skip
    flag as it was when the call started, finds 99.9 percent, sets the latch
    and returns 100.  After the call the skip flag and the latch are both
    set and the reported progress is 100. *)
Theorem skip_found_in_call_does_not_hold_latch :
  let d := Q2Qc 100 in
  let st :=
    Hook.run [(d, Hook.Play 0 0); (d, Hook.TimeUpdate 500 (Q2Qc (1 # 2)))]
      (initialState 0) in
  let st' := Hook.handleTimeUpdate d 1000 (Q2Qc (999 # 10)) st in
  (skippedAhead st = false
   /\ wasFullyWatchedRef st = false
   /\ Hook.isSkip (Q2Qc (999 # 10)) st = true
   /\ Hook.uiDue 1000 st = true)
  /\ skippedAhead st' = true
  /\ intervalsRef st' = [iv 0 (999 # 10)]
  /\ Merge.percentageOf d (intervalsRef st') = Q2Qc (999 # 10)
  /\ wasFullyWatchedRef st' = true
  /\ isCompleted st' = true
  /\ localProgress st' = HUNDRED.
Proof. cbv zeta. repeat split; try (vm_compute; reflexivity); by_eval. Qed.




(** ** The handlers *)

(** C6.  With the latch set [resetProgress] returns the state it was given;
    with the latch unset it empties the accumulated intervals, the open
    interval, the last position, the watched total, the skip flag and the
    reported progress, and writes the empty record to the cache. *)
Theorem resetProgress_spec (now : Z) (st : State) :
  (wasFullyWatchedRef st = true -> Hook.resetProgress now st = st)
  /\ (wasFullyWatchedRef st = false ->
      let st' := Hook.resetProgress now st in
      intervalsRef st' = []
      /\ currentIntervalRef st' = None
      /\ lastKnownPositionRef st' = 0
      /\ totalWatchedRef st' = 0
      /\ skippedAhead st' = false
      /\ localProgress st' = 0
      /\ wasFullyWatchedRef st' = false
      /\ localStorage st' = Some (emptyRecord now)
      /\ calls st' = calls st ++ [SetItem (emptyRecord now)]).
Proof.
  split; intro H.
  - apply resetProgress_latched, H.
  - unfold Hook.resetProgress, Hook.saveToLocalStorage, Hook.cacheRecord,
      emptyRecord. rewrite H. cbn. rewrite H. repeat split.
Qed.

Lemma resetProgress_spec_witness :
  let d := Q2Qc 100 in
  let watched :=
    Hook.run [(d, Hook.Play 0 0); (d, Hook.Pause 900 (Q2Qc 30))] (initialState 0) in
  let completed := set_wasFullyWatchedRef true watched in
  Hook.resetProgress 1000 completed = completed
  /\ intervalsRef (Hook.resetProgress 1000 watched) = []
  /\ localStorage (Hook.resetProgress 1000 watched) = Some (emptyRecord 1000).
Proof.
  cbv zeta. split.
  - apply (proj1 (resetProgress_spec 1000 _)). reflexivity.
  - set (watched := Hook.run _ _).
    destruct (proj2 (resetProgress_spec 1000 watched)) as (H1 & _ & _ & _ & _ & _ & _ & H8 & _);
      [reflexivity|].
    split; [exact H1 | exact H8].
Defined.

(** C10.  A call of [handleTimeUpdate] while the tracker is not playing, or
    while the duration is zero, returns the state it was given: no cell, no
    cadence timestamp and no outgoing call changes. *)
Theorem handleTimeUpdate_idle (d : Qc) (now : Z) (t : Qc) (st : State) :
  isPlayingRef st = false \/ d = 0 ->
  Hook.handleTimeUpdate d now t st = st.
Proof.
  intros [H | H]; unfold Hook.handleTimeUpdate.
  - rewrite H. reflexivity.
  - apply falsy_iff in H. rewrite H, orb_true_r. reflexivity.
Qed.

Lemma handleTimeUpdate_idle_witness :
  Hook.handleTimeUpdate (Q2Qc 100) 7000 (Q2Qc 3) (initialState 0) = initialState 0
  /\ Hook.handleTimeUpdate 0 7000 (Q2Qc 3)
       (Hook.handlePlay 0 0 (initialState 0))
     = Hook.handlePlay 0 0 (initialState 0).
Proof.
  split; apply handleTimeUpdate_idle; [left | right]; reflexivity.
Defined.

(** C1, on the code.  Playback starts at 0 and reaches 0.5; the next sample
    is at 50, a skip.  [handleTimeUpdate] writes 50 into the end of the open
    interval before it looks for the skip, so the interval it closes is
    [{0, 50}]: the open interval is extended to [t] in the skip case too. *)
Theorem handleTimeUpdate_skip_closes_extended_interval :
  let d := Q2Qc 100 in
  let st :=
    Hook.run [(d, Hook.Play 0 0); (d, Hook.TimeUpdate 500 (Q2Qc (1 # 2)))]
      (initialState 0) in
  let st' := Hook.handleTimeUpdate d 600 (Q2Qc 50) st in
  (isPlayingRef st = true
   /\ currentIntervalRef st = Some (iv 0 (1 # 2))
   /\ lastKnownPositionRef st = Q2Qc (1 # 2)
   /\ intervalsRef st = [])
  /\ Hook.isSkip (Q2Qc 50) st = true
  /\ intervalsRef st' = [iv 0 50]
  /\ currentIntervalRef st' = Some (iv 50 50)
  /\ skippedAhead st' = true
  /\ lastKnownPositionRef st' = Q2Qc 50.
Proof. cbv zeta. repeat split; try (f_equal; by_eval); by_eval. Qed.

(** ** Persistence *)

(** C5, as the code has it.  At a persistence tick (playing, nonzero
    duration, 5000 ms since the last tick) the only outgoing call of
    [handleTimeUpdate] is the remote write of the open interval, and the
    cache is left as it was.  The cache is written afterwards, when the
    remote write has succeeded, with the record as it is then; when the
    remote write fails the cache is not written. *)
Theorem save_tick_order (d : Qc) (now : Z) (t : Qc) (st : State) :
  isPlayingRef st = true ->
  d <> 0 ->
  Hook.saveDue now st = true ->
  let st' := Hook.handleTimeUpdate d now t st in
  (exists current,
      currentIntervalRef st' = Some current
      /\ calls st' = calls st ++ [Post current t])
  /\ localStorage st' = localStorage st
  /\ (forall now' response,
        let st'' := Hook.saveProgress_resolved now' response st' in
        localStorage st'' = Some (Hook.cacheRecord now' st')
        /\ calls st'' = calls st'
                        ++ [SetItem (Hook.cacheRecord now' st'); Emit response])
  /\ localStorage (Hook.saveProgress_rejected st') = localStorage st'
  /\ calls (Hook.saveProgress_rejected st') = calls st'.
Proof.
  intros Hp Hd Hs st'.
  split; [|split; [|split; [|split]]]; try reflexivity.
  - subst st'. unfold Hook.handleTimeUpdate.
    apply falsy_false_iff in Hd. rewrite Hp, Hd, Hs. cbn [negb orb].
    match goal with
    | |- context [Hook.saveToServer ?a ?b ?c ?e ?x] =>
        assert (Hq : quiet st x)
    end.
    { destruct (Hook.uiDue now st); [apply updateUI_quiet|];
        apply checkForSkips_quiet, updateCurrentInterval_quiet. }
    apply (saveToServer_calls d (skippedAhead st) now t) in Hq.
    destruct Hq as (_ & current & H1 & H2).
    exists current. cbn. auto.
  - subst st'. unfold Hook.handleTimeUpdate.
    apply falsy_false_iff in Hd. rewrite Hp, Hd, Hs. cbn [negb orb].
    match goal with
    | |- context [Hook.saveToServer ?a ?b ?c ?e ?x] =>
        assert (Hq : quiet st x)
    end.
    { destruct (Hook.uiDue now st); [apply updateUI_quiet|];
        apply checkForSkips_quiet, updateCurrentInterval_quiet. }
    apply (saveToServer_calls d (skippedAhead st) now t) in Hq.
    destruct Hq as (H & _). cbn. exact H.
  - intros now' response. apply saveProgress_resolved_spec.
Qed.

Lemma save_tick_order_witness :
  let st := Hook.handlePlay 0 0 (initialState 0) in
  let st' := Hook.handleTimeUpdate (Q2Qc 100) 5000 (Q2Qc 5) st in
  (exists current,
      currentIntervalRef st' = Some current
      /\ calls st' = calls st ++ [Post current (Q2Qc 5)])
  /\ localStorage st' = localStorage st.
Proof.
  cbv zeta.
  destruct (save_tick_order (Q2Qc 100) 5000 (Q2Qc 5)
              (Hook.handlePlay 0 0 (initialState 0)))
    as (H1 & H2 & _); [reflexivity | by_eval | reflexivity |].
  split; [exact H1 | exact H2].
Defined.

(** C5 fails as stated: playback starts at 0 with an empty cache, and the
    tick at 5000 ms closes [{0, 5}] into the accumulated intervals.  The one
    call made is the remote write; the cache is still empty after the tick,
    and it stays empty when the remote write fails. *)
Lemma save_tick_posts_before_caching :
  let st := Hook.handlePlay 0 0 (initialState 0) in
  let st' := Hook.handleTimeUpdate (Q2Qc 100) 5000 (Q2Qc 5) st in
  Hook.saveDue 5000 st = true
  /\ intervalsRef st' = [iv 0 5]
  /\ calls st' = [Post (iv 5 5) (Q2Qc 5)]
  /\ localStorage st' = None
  /\ localStorage (Hook.saveProgress_rejected st') = None
  /\ calls (Hook.saveProgress_rejected st') = [Post (iv 5 5) (Q2Qc 5)].
Proof. cbv zeta. repeat split; by_eval. Qed.

(** ** Start-up *)

(** C4, as the code has it.  [loadProgress] seeds the tracker from the cached
    record when that record is completed, when the percentage computed from
    its intervals sets the latch, when the remote record is not strictly
    later, or when there is no remote record; it seeds the tracker from the
    remote record when there is no cached record, or when the latch is unset
    after the cached record has been read and the remote record is strictly
    later.  The cached record seeds intervals, position and latch.  The
    remote record seeds intervals and position; the latch is then what it
    was, or set by the computation on the remote intervals. *)
Theorem loadProgress_choice (d : Qc) (remote : option IProgress) (st : State) :
  let skipped := skippedAhead st in
  let st' := Hook.loadProgress d remote st in
  (forall c r,
     localStorage st = Some c -> remote = Some r ->
     isCompletedL c = true ->
     seededFromCache c st' /\ wasFullyWatchedRef st' = true)
  /\ (forall c r,
        localStorage st = Some c -> remote = Some r ->
        isCompletedL c = false -> reaches d skipped (intervals c) = true ->
        seededFromCache c st' /\ wasFullyWatchedRef st' = true)
  /\ (forall c r,
        localStorage st = Some c -> remote = Some r ->
        isCompletedL c = false -> reaches d skipped (intervals c) = false ->
        (timestamp c < p_lastWatchedAt r)%Z ->
        seededFromServer r st'
        /\ wasFullyWatchedRef st' = reaches d skipped (p_intervals r))
  /\ (forall c r,
        localStorage st = Some c -> remote = Some r ->
        (p_lastWatchedAt r <= timestamp c)%Z ->
        seededFromCache c st'
        /\ wasFullyWatchedRef st'
           = isCompletedL c || reaches d skipped (intervals c))
  /\ (forall c,
        localStorage st = Some c -> remote = None ->
        seededFromCache c st'
        /\ wasFullyWatchedRef st'
           = isCompletedL c || reaches d skipped (intervals c))
  /\ (forall r,
        localStorage st = None -> remote = Some r ->
        seededFromServer r st'
        /\ wasFullyWatchedRef st'
           = wasFullyWatchedRef st || reaches d skipped (p_intervals r)).
Proof.
  intros skipped st'. subst st'. unfold Hook.loadProgress. fold skipped.
  assert (Keep : forall c r,
    localStorage st = Some c ->
    Hook.useServerData (Some c) r (Hook.loadProgress_local d st) = false ->
    let st' := Hook.loadProgress_resolved d skipped (Some c) r
                 (Hook.loadProgress_local d st) in
    seededFromCache c st'
    /\ wasFullyWatchedRef st'
       = isCompletedL c || reaches d skipped (intervals c)).
  { intros c r Hc Hu.
    destruct (loadProgress_local_cached d st c Hc) as [[S1 S2] L].
    destruct (loadProgress_resolved_keep d skipped (Some c) r _ Hu)
      as (K1 & K2 & K3).
    cbv zeta. unfold seededFromCache. rewrite K1, K2, K3. auto. }
  assert (Latch : forall c,
    localStorage st = Some c ->
    wasFullyWatchedRef (Hook.loadProgress_local d st)
    = isCompletedL c || reaches d skipped (intervals c)).
  { intros c Hc. apply (loadProgress_local_cached d st c Hc). }
  split; [|split; [|split; [|split; [|split]]]].
  - intros c r Hc -> Hdone. rewrite Hc.
    destruct (Keep c r Hc) as [S L].
    + unfold Hook.useServerData. rewrite (Latch c Hc), Hdone. reflexivity.
    + split; [exact S|]. rewrite L, Hdone. reflexivity.
  - intros c r Hc -> Hdone Hr. rewrite Hc.
    destruct (Keep c r Hc) as [S L].
    + unfold Hook.useServerData.
      rewrite (Latch c Hc), Hr, orb_true_r. reflexivity.
    + split; [exact S|]. rewrite L, Hr. apply orb_true_r.
  - intros c r Hc -> Hdone Hr Hlater. rewrite Hc.
    assert (Hu : Hook.useServerData (Some c) r (Hook.loadProgress_local d st)
                 = true).
    { unfold Hook.useServerData. rewrite (Latch c Hc), Hdone, Hr. cbn.
      apply Z.ltb_lt, Hlater. }
    destruct (loadProgress_resolved_server d skipped (Some c) r _ Hu) as [S L].
    split; [exact S|]. rewrite L, (Latch c Hc), Hdone, Hr. reflexivity.
  - intros c r Hc -> Hle. rewrite Hc. apply (Keep c r Hc).
    unfold Hook.useServerData.
    replace (timestamp c <? p_lastWatchedAt r)%Z with false
      by (symmetry; apply Z.ltb_ge, Hle).
    apply andb_false_r.
  - intros c Hc ->.
    destruct (loadProgress_local_cached d st c Hc) as [[S1 S2] L].
    unfold seededFromCache, Hook.loadProgress_rejected. cbn. auto.
  - intros r Hn ->. rewrite Hn.
    destruct (loadProgress_local_empty d st Hn) as (_ & _ & E3).
    destruct (loadProgress_resolved_server d skipped None r
                (Hook.loadProgress_local d st) eq_refl) as [S L].
    split; [exact S|]. rewrite L, E3. reflexivity.
Qed.

Lemma loadProgress_choice_witness :
  let d := Q2Qc 100 in
  let done := mkLocal (Q2Qc 100) (Q2Qc 100) [iv 0 100] 1000 true in
  let part := mkLocal (Q2Qc 30) (Q2Qc 30) [iv 0 30] 1000 false in
  let r := mkProgress [iv 0 10] (Q2Qc 10) (Q2Qc 10) 2000 in
  (seededFromCache done
     (Hook.loadProgress d (Some r) (set_localStorage (Some done) (initialState 0)))
   /\ wasFullyWatchedRef
        (Hook.loadProgress d (Some r)
           (set_localStorage (Some done) (initialState 0))) = true)
  /\ (seededFromServer r
        (Hook.loadProgress d (Some r)
           (set_localStorage (Some part) (initialState 0)))
      /\ wasFullyWatchedRef
           (Hook.loadProgress d (Some r)
              (set_localStorage (Some part) (initialState 0))) = false).
Proof.
  cbv zeta.
  set (done := mkLocal (Q2Qc 100) (Q2Qc 100) [iv 0 100] 1000 true).
  set (part := mkLocal (Q2Qc 30) (Q2Qc 30) [iv 0 30] 1000 false).
  set (r := mkProgress [iv 0 10] (Q2Qc 10) (Q2Qc 10) 2000).
  split.
  - destruct (loadProgress_choice (Q2Qc 100) (Some r)
                (set_localStorage (Some done) (initialState 0)))
      as (H & _).
    apply (H done r); reflexivity.
  - destruct (loadProgress_choice (Q2Qc 100) (Some r)
                (set_localStorage (Some part) (initialState 0)))
      as (_ & _ & H & _).
    destruct (H part r) as [S L]; try reflexivity.
    split; [exact S|]. rewrite L. reflexivity.
Defined.

(** C4 fails as stated: the cached record is not completed but its intervals
    cover the whole video, and the remote record is later.  Reading the
    cached record sets the latch, and the remote record is not taken. *)
Lemma loadProgress_keeps_uncompleted_cache :
  let d := Q2Qc 100 in
  let c := mkLocal (Q2Qc 100) (Q2Qc 100) [iv 0 100] 1000 false in
  let r := mkProgress [iv 0 10] (Q2Qc 10) (Q2Qc 10) 2000 in
  let st := set_localStorage (Some c) (initialState 0) in
  let st' := Hook.loadProgress d (Some r) st in
  isCompletedL c = false
  /\ (timestamp c < p_lastWatchedAt r)%Z
  /\ intervalsRef st' = intervals c
  /\ lastKnownPositionRef st' = lastPosition c
  /\ intervalsRef st' <> p_intervals r
  /\ wasFullyWatchedRef st' = true.
Proof. cbv zeta. repeat split; by_eval. Qed.

(** * Part IV: further properties of the code *)

Import More MergeMore HookMore.

(** ** The merge pass *)

(** X1.  With a positive duration and no accumulated interval ending before
    position 0, the watched total lies between 0 and the duration and
    [calculateProgress] returns a number between 0 and 100. *)
Theorem calculateProgress_in_range (d : Qc) (skipped : bool) (st : State) :
  0 < d ->
  Forall (fun x => 0 <= end_ x) (intervalsRef st) ->
  0 <= Merge.totalWatchedOf d (intervalsRef st)
  /\ Merge.totalWatchedOf d (intervalsRef st) <= d
  /\ 0 <= fst (Hook.calculateProgress d skipped st)
  /\ fst (Hook.calculateProgress d skipped st) <= HUNDRED.
Proof.
  intros Hd He.
  destruct (totalWatchedOf_bounds d _ Hd He) as [T0 T1].
  pose proof (percentageOf_nonneg d _ Hd He) as P0.
  pose proof (percentageOf_le_100 d (intervalsRef st)) as P1.
  split; [exact T0|]. split; [exact T1|].
  unfold Hook.calculateProgress. rewrite (falsy_pos d Hd).
  fold (Merge.percentageOf d (intervalsRef st)).
  destruct (wasFullyWatchedRef st); [cbn; split; qc|].
  destruct (_ && _); cbn; split; try assumption; qc.
Qed.

Lemma calculateProgress_in_range_witness :
  let st := set_intervalsRef [iv 0 30; iv 20 50; iv (-3) 4] (initialState 0) in
  0 <= fst (Hook.calculateProgress (Q2Qc 100) false st)
  /\ fst (Hook.calculateProgress (Q2Qc 100) false st) <= HUNDRED.
Proof.
  cbv zeta.
  destruct (calculateProgress_in_range (Q2Qc 100) false
              (set_intervalsRef [iv 0 30; iv 20 50; iv (-3) 4] (initialState 0)))
    as (_ & _ & H0 & H1).
  - reflexivity.
  - repeat constructor; vm_compute; discriminate.
  - split; assumption.
Defined.

(** X2.  Every position inside a raw interval that passes the filter, once
    the interval is clamped to the video, is inside one of the merged
    intervals. *)
Theorem merged_cover_watched (d : Qc) (raw : list IInterval)
  (x : IInterval) (p : Qc) :
  In x raw ->
  Merge.isValid d x = true ->
  covers (Merge.clamp d x) p ->
  exists m, In m (Merge.mergedIntervals d raw) /\ covers m p.
Proof.
  intros Hin Hv Hc.
  apply Exists_exists. apply (mergedIntervals_covers d raw x p); assumption.
Qed.

Lemma merged_cover_watched_witness :
  exists m,
    In m (Merge.mergedIntervals (Q2Qc 100) [iv 32 60; iv 0 30; iv 25 (67 # 2)])
    /\ covers m (Q2Qc 33).
Proof.
  apply (merged_cover_watched (Q2Qc 100) _ (iv 25 (67 # 2)) (Q2Qc 33)).
  - right. right. left. reflexivity.
  - reflexivity.
  - split; vm_compute; congruence.
Defined.

(** X3.  The merge invents no position: every merged interval starts where
    some raw interval that passes the filter starts after clamping, and ends
    where some such interval ends after clamping. *)
Theorem merged_endpoints_from_raw (d : Qc) (raw : list IInterval)
  (m : IInterval) :
  In m (Merge.mergedIntervals d raw) ->
  (exists x, In x raw /\ Merge.isValid d x = true
             /\ start m = start (Merge.clamp d x))
  /\ (exists y, In y raw /\ Merge.isValid d y = true
                /\ end_ m = end_ (Merge.clamp d y)).
Proof. apply mergedIntervals_endpoints. Qed.

Lemma merged_endpoints_from_raw_witness :
  let raw := [iv 32 60; iv 0 30; iv 25 (67 # 2)] in
  (exists x, In x raw /\ Merge.isValid (Q2Qc 100) x = true
             /\ start (iv 0 60) = start (Merge.clamp (Q2Qc 100) x))
  /\ (exists y, In y raw /\ Merge.isValid (Q2Qc 100) y = true
                /\ end_ (iv 0 60) = end_ (Merge.clamp (Q2Qc 100) y)).
Proof.
  apply (merged_endpoints_from_raw (Q2Qc 100)).
  left. apply MergeFacts.interval_eqb_eq. vm_compute. reflexivity.
Defined.

(** ** [handleTimeUpdate] *)

(** X4.  While playing with a nonzero duration and an open interval
    [current], [handleTimeUpdate(t)] closes the open interval as
    [{start, t}] exactly when [t] is a skip or a persistence tick is due and
    [t - start] is at least one second; it then opens [{t, t}], and otherwise
    leaves [{start, t}] open.  The skip flag is set on a skip and never
    cleared, and the last position becomes [t]. *)
Theorem handleTimeUpdate_bookkeeping (d : Qc) (now : Z) (t : Qc) (st : State)
  (current : IInterval) :
  isPlayingRef st = true ->
  d <> 0 ->
  currentIntervalRef st = Some current ->
  let st' := Hook.handleTimeUpdate d now t st in
  intervalsRef st'
  = intervalsRef st
    ++ (if closes now t current st then [mkInterval (start current) t] else [])
  /\ currentIntervalRef st'
     = Some (if closes now t current st then mkInterval t t
             else mkInterval (start current) t)
  /\ skippedAhead st' = skippedAhead st || Hook.isSkip t st
  /\ lastKnownPositionRef st' = t
  /\ isPlayingRef st' = true.
Proof. apply handleTimeUpdate_books. Qed.

Lemma handleTimeUpdate_bookkeeping_witness :
  let st := Hook.handlePlay 0 (Q2Qc 2) (initialState 0) in
  let st' := Hook.handleTimeUpdate (Q2Qc 100) 5000 (Q2Qc 7) st in
  intervalsRef st' = intervalsRef st ++ [mkInterval (Q2Qc 2) (Q2Qc 7)]
  /\ currentIntervalRef st' = Some (mkInterval (Q2Qc 7) (Q2Qc 7)).
Proof.
  cbv zeta.
  destruct (handleTimeUpdate_bookkeeping (Q2Qc 100) 5000 (Q2Qc 7)
              (Hook.handlePlay 0 (Q2Qc 2) (initialState 0))
              (mkInterval (Q2Qc 2) (Q2Qc 2)))
    as (H1 & H2 & _); [reflexivity | by_eval | reflexivity |].
  split; [exact H1 | exact H2].
Defined.

(** X5.  A second [handleTimeUpdate] with the same clock reading and the
    same position changes nothing: neither cadence fires again, no interval
    is closed and no call is made. *)
Theorem handleTimeUpdate_resample (d : Qc) (now : Z) (t : Qc) (st : State) :
  Hook.handleTimeUpdate d now t (Hook.handleTimeUpdate d now t st)
  = Hook.handleTimeUpdate d now t st.
Proof.
  destruct (isPlayingRef st) eqn:Hp;
    [|rewrite !(handleTimeUpdate_early d now t st (or_introl Hp)); reflexivity].
  destruct (eqb d 0) eqn:Hd;
    [apply eqb_eq in Hd;
     rewrite !(handleTimeUpdate_early d now t st (or_intror Hd)); reflexivity|].
  apply eqb_neq in Hd.
  destruct (handleTimeUpdate_open d now t st Hp Hd) as ((c & C & E) & L & P).
  destruct (handleTimeUpdate_not_due_again d now t st Hp Hd) as [U S].
  set (st1 := Hook.handleTimeUpdate d now t st) in *.
  rewrite (handleTimeUpdate_between_ticks d now t st1 P Hd U S).
  unfold Hook.updateCurrentInterval. rewrite C, <- E.
  replace (mkInterval (start c) (end_ c)) with c by (destruct c; reflexivity).
  rewrite (set_currentIntervalRef_same st1 c C).
  unfold Hook.checkForSkips. rewrite E, (isSkip_same t st1 L).
  apply set_lastKnownPositionRef_same, L.
Qed.

(** X6.  A call of [handleTimeUpdate] at which no persistence tick is due
    makes no outgoing call and leaves the cache as it was, whether or not
    the UI cadence fires. *)
Theorem handleTimeUpdate_ui_tick_is_local (d : Qc) (now : Z) (t : Qc)
  (st : State) :
  Hook.saveDue now st = false ->
  calls (Hook.handleTimeUpdate d now t st) = calls st
  /\ localStorage (Hook.handleTimeUpdate d now t st) = localStorage st.
Proof.
  intro Hs. unfold Hook.handleTimeUpdate. rewrite Hs.
  destruct (_ || _); [auto|].
  assert (Hq : quiet st
                 (if Hook.uiDue now st
                  then Hook.updateUI d (skippedAhead st) now
                         (Hook.checkForSkips t (Hook.updateCurrentInterval t st))
                  else Hook.checkForSkips t (Hook.updateCurrentInterval t st))).
  { destruct (Hook.uiDue now st); [apply updateUI_quiet|];
      apply checkForSkips_quiet, updateCurrentInterval_quiet. }
  destruct Hq as (H1 & H2 & _). cbn. auto.
Qed.

Lemma handleTimeUpdate_ui_tick_is_local_witness :
  let st := Hook.handlePlay 0 0 (initialState 0) in
  Hook.uiDue 1500 st = true
  /\ calls (Hook.handleTimeUpdate (Q2Qc 100) 1500 (Q2Qc (3 # 2)) st) = calls st
  /\ localStorage (Hook.handleTimeUpdate (Q2Qc 100) 1500 (Q2Qc (3 # 2)) st)
     = localStorage st.
Proof.
  cbv zeta. split; [reflexivity|].
  apply handleTimeUpdate_ui_tick_is_local. reflexivity.
Defined.

(** X7.  While playing with a nonzero duration and an open interval, the
    latch after [handleTimeUpdate] is the latch before, or is set at a UI
    tick by the intervals accumulated up to the skip check, or at a
    persistence tick by the intervals accumulated in the call; both are
    judged with the skip flag as it was when the call started, so a skip
    found by the call does not hold the latch back in that call. *)
Theorem handleTimeUpdate_latch_after (d : Qc) (now : Z) (t : Qc) (st : State)
  (current : IInterval) :
  isPlayingRef st = true ->
  d <> 0 ->
  currentIntervalRef st = Some current ->
  let st' := Hook.handleTimeUpdate d now t st in
  wasFullyWatchedRef st'
  = wasFullyWatchedRef st
    || (Hook.uiDue now st
        && reaches d (skippedAhead st)
             (intervalsRef st
              ++ (if Hook.isSkip t st then [mkInterval (start current) t]
                  else [])))
    || (Hook.saveDue now st && reaches d (skippedAhead st) (intervalsRef st')).
Proof. apply handleTimeUpdate_latch. Qed.

Lemma handleTimeUpdate_latch_after_witness :
  let d := Q2Qc 100 in
  let st :=
    Hook.run [(d, Hook.Play 0 0); (d, Hook.TimeUpdate 500 (Q2Qc (1 # 2)))]
      (initialState 0) in
  let st' := Hook.handleTimeUpdate d 1000 (Q2Qc (999 # 10)) st in
  skippedAhead st = false
  /\ Hook.isSkip (Q2Qc (999 # 10)) st = true
  /\ skippedAhead st' = true
  /\ wasFullyWatchedRef st' = true.
Proof.
  cbv zeta. split; [reflexivity|]. split; [reflexivity|].
  split; [reflexivity|].
  rewrite (handleTimeUpdate_latch_after (Q2Qc 100) 1000 (Q2Qc (999 # 10)) _
             (mkInterval 0 (Q2Qc (1 # 2))));
    [reflexivity | reflexivity | by_eval | reflexivity].
Defined.

(** X8.  At a persistence tick the remote write carries the open interval
    as it is after the bookkeeping of the call: the fresh [{t, t}] when the
    call has closed an interval, and [{start, t}] only when the open interval
    is shorter than one second and [t] is no skip. *)
Theorem handleTimeUpdate_remote_payload (d : Qc) (now : Z) (t : Qc)
  (st : State) (current : IInterval) :
  isPlayingRef st = true ->
  d <> 0 ->
  Hook.saveDue now st = true ->
  currentIntervalRef st = Some current ->
  calls (Hook.handleTimeUpdate d now t st)
  = calls st
    ++ [Post (if closes now t current st then mkInterval t t
              else mkInterval (start current) t) t].
Proof. apply handleTimeUpdate_post. Qed.

Lemma handleTimeUpdate_remote_payload_witness :
  let st := Hook.handlePlay 0 (Q2Qc 2) (initialState 0) in
  calls (Hook.handleTimeUpdate (Q2Qc 100) 5000 (Q2Qc 7) st)
  = calls st ++ [Post (mkInterval (Q2Qc 7) (Q2Qc 7)) (Q2Qc 7)].
Proof.
  cbv zeta.
  rewrite (handleTimeUpdate_remote_payload (Q2Qc 100) 5000 (Q2Qc 7) _
             (mkInterval (Q2Qc 2) (Q2Qc 2)));
    [reflexivity | reflexivity | by_eval | reflexivity | reflexivity].
Defined.

(** X9.  [calculateProgress] writes the cached total, the latch and the
    completion flag, and nothing else: the accumulated intervals, the open
    interval, the last position, the skip flag, the playing flag, both
    cadence timestamps, the reported progress, the cache and the outgoing
    calls are as before. *)
Theorem calculateProgress_writes_three (d : Qc) (skipped : bool) (st : State) :
  let st' := snd (Hook.calculateProgress d skipped st) in
  st' = set_isCompleted (isCompleted st')
          (set_wasFullyWatchedRef (wasFullyWatchedRef st')
             (set_totalWatchedRef (totalWatchedRef st') st)).
Proof.
  cbv zeta.
  destruct (Hook.calculateProgress d skipped st) as [p st'] eqn:C.
  apply (calculateProgress_only d skipped st p st' C).
Qed.

(** ** Sessions *)

(** X10.  While the tracker is playing it holds an open interval: this is
    kept by play, pause, time update and the completion of a remote save,
    so it holds after any such events from the start of a session. *)
Theorem playing_keeps_open_interval (events : list (Qc * Hook.Event))
  (st : State) :
  Forall (fun de => isReset (snd de) = false) events ->
  tracking st ->
  tracking (Hook.run events st).
Proof.
  revert st. induction events as [|[d e] events IH]; intros st He Ht;
    [exact Ht|].
  apply Forall_cons_iff in He as [Hr He]. cbn in Hr.
  apply IH; [exact He|]. clear IH He. cbn [Hook.run fold_left fst snd Hook.handle].
  unfold Hook.handle.
  destruct e as [now t | now t | now t | now | now response |];
    try discriminate; unfold tracking in *.
  - intros _. unfold Hook.handlePlay. cbn. eauto.
  - intro Hp. destruct (handlePause_keeps d now t st) as (P & _). congruence.
  - destruct (isPlayingRef st) eqn:Hp.
    + destruct (eqb d 0) eqn:Hd.
      * apply eqb_eq in Hd.
        rewrite (handleTimeUpdate_early d now t st (or_intror Hd)), Hp.
        exact Ht.
      * apply eqb_neq in Hd. intros _.
        destruct (handleTimeUpdate_open d now t st Hp Hd)
          as ((c & C & _) & _).
        eauto.
    + rewrite (handleTimeUpdate_early d now t st (or_introl Hp)), Hp.
      discriminate.
  - cbn. exact Ht.
  - cbn. exact Ht.
Qed.

Lemma playing_keeps_open_interval_witness :
  let d := Q2Qc 100 in
  tracking
    (Hook.run
       [(d, Hook.Play 0 0); (d, Hook.TimeUpdate 5000 (Q2Qc 5));
        (d, Hook.SaveRejected); (d, Hook.TimeUpdate 5250 (Q2Qc 40))]
       (initialState 0)).
Proof.
  apply playing_keeps_open_interval.
  - repeat constructor.
  - intro H. discriminate H.
Defined.



(** X12.  Between two runs of [loadProgress] recorded intervals are only
    appended: over any calls of the handlers other than [resetProgress] and
    [handlePlay] at position 0, at the end of which the skip flag is what it
    was at the start, no load is started and the accumulated list is the
    earlier list followed by the intervals closed since. *)
Theorem intervals_append_only_between_loads (events : list Session.Event)
  (s : Session.Session) :
  forallb Session.plain events = true ->
  skippedAhead (Session.hook (Session.run events s))
  = skippedAhead (Session.hook s) ->
  Session.loads (Session.run events s) = Session.loads s
  /\ exists suffix,
       intervalsRef (Session.hook (Session.run events s))
       = intervalsRef (Session.hook s) ++ suffix.
Proof.
  revert s. induction events as [|ev events IH]; intros s Hp Hs.
  - split; [reflexivity|]. exists []. cbn. rewrite app_nil_r. reflexivity.
  - cbn in Hp. apply andb_true_iff in Hp as [Hev Hp].
    change (Session.run (ev :: events) s)
      with (Session.run events (Session.step ev s)) in *.
    assert (Hstep : skippedAhead (Session.hook (Session.step ev s))
                    = skippedAhead (Session.hook s)).
    { destruct (skippedAhead (Session.hook s)) eqn:E.
      - apply SessionFacts.step_plain_skipped; assumption.
      - destruct (skippedAhead (Session.hook (Session.step ev s))) eqn:E1;
          [|reflexivity].
        rewrite (SessionFacts.run_plain_skipped events _ Hp E1) in Hs.
        discriminate. }
    destruct (SessionFacts.step_plain_same ev s Hev Hstep)
      as (L1 & _ & s1 & I1).
    rewrite <- Hstep in Hs.
    destruct (IH (Session.step ev s) Hp Hs) as (L2 & s2 & I2).
    split; [rewrite L2; exact L1|].
    exists (s1 ++ s2). rewrite I2, I1, app_assoc. reflexivity.
Qed.

Lemma intervals_append_only_between_loads_witness :
  let s := Session.mount 0 None (Q2Qc 100) in
  let events :=
    [Session.Handler (Hook.Play 1000 (Q2Qc 3));
     Session.Handler (Hook.TimeUpdate 1500 (Q2Qc 4));
     Session.Handler (Hook.TimeUpdate 6500 (Q2Qc 9));
     Session.Handler (Hook.Pause 7000 (Q2Qc 12))] in
  Session.loads (Session.run events s) = Session.loads s
  /\ exists suffix,
       intervalsRef (Session.hook (Session.run events s))
       = intervalsRef (Session.hook s) ++ suffix.
Proof.
  apply intervals_append_only_between_loads; vm_compute; reflexivity.
Defined.

(** X24.  A handler call that changes the skip flag makes [loadProgress] run
    again.  When the cache holds a record, the tracker then holds the
    intervals and the last position of that record, not those it had
    accumulated, and its latch is the flag of the record or is set by the
    percentage of the cached intervals under the new skip flag; when the
    cache is empty the tracker keeps what it holds.  In both cases a load is
    under way. *)
Theorem skip_change_reloads_cache (e : Hook.Event) (s : Session.Session) :
  let st1 := Hook.handle (Session.duration s) e (Session.hook s) in
  let s' := Session.step (Session.Handler e) s in
  skippedAhead st1 <> skippedAhead (Session.hook s) ->
  Session.loads s'
  = Session.loads s
    ++ [Session.mkLoad (Session.duration s) (skippedAhead st1)
          (localStorage st1)]
  /\ (forall parsed,
        localStorage st1 = Some parsed ->
        seededFromCache parsed (Session.hook s')
        /\ wasFullyWatchedRef (Session.hook s')
           = isCompletedL parsed
             || reaches (Session.duration s) (skippedAhead st1)
                  (intervals parsed))
  /\ (localStorage st1 = None ->
      intervalsRef (Session.hook s') = intervalsRef st1
      /\ lastKnownPositionRef (Session.hook s') = lastKnownPositionRef st1
      /\ wasFullyWatchedRef (Session.hook s') = wasFullyWatchedRef st1).
Proof.
  intros st1 s' Hne. subst s'. cbn [Session.step]. unfold Session.render.
  cbn [Session.hook Session.duration]. fold st1.
  replace (Bool.eqb (skippedAhead st1) (skippedAhead (Session.hook s)))
    with false
    by (symmetry; apply Bool.eqb_false_iff; exact Hne).
  cbn [andb]. unfold Session.startLoad.
  cbn [Session.hook Session.duration Session.loads].
  split; [reflexivity|]. split.
  - intros parsed Hc.
    apply (loadProgress_local_cached (Session.duration s) st1 parsed Hc).
  - intro Hc. apply (loadProgress_local_empty (Session.duration s) st1 Hc).
Qed.

Lemma skip_change_reloads_cache_witness :
  let s :=
    Session.run
      [Session.LoadRejected 0;
       Session.Handler (Hook.Play 1000 0);
       Session.Handler (Hook.TimeUpdate 1500 (Q2Qc (1 # 2)));
       Session.Handler (Hook.Pause 3000 (Q2Qc 2));
       Session.Handler (Hook.Play 4000 (Q2Qc 2))]
      (Session.mount 0 None (Q2Qc 100)) in
  let e := Hook.TimeUpdate 4500 (Q2Qc (999 # 10)) in
  intervalsRef (Session.hook s) = [iv 0 2]
  /\ intervalsRef (Hook.handle (Session.duration s) e (Session.hook s))
     = [iv 0 2; iv 2 (999 # 10)]
  /\ intervalsRef (Session.hook (Session.step (Session.Handler e) s))
     = [iv 0 2].
Proof.
  cbv zeta. split; [by_eval|]. split; [by_eval|].
  set (s := Session.run _ _).
  set (e := Hook.TimeUpdate 4500 (Q2Qc (999 # 10))).
  destruct (skip_change_reloads_cache e s) as (_ & H & _);
    [vm_compute; discriminate|].
  destruct (H (mkLocal (Q2Qc (1 # 2)) (Q2Qc 2) [iv 0 2] 3000 false))
    as [[I _] _].
  - subst s e. vm_compute. reflexivity.
  - rewrite I. reflexivity.
Defined.

(** X25.  The run of [loadProgress] that follows the first skip clears a
    latch that the cache does not record: when a handler call sets the skip
    flag and the cache then holds a record not marked completed, the latch
    is not set after the call, whatever it was before.  A latch set at
    load from the intervals of such a record is lost in this way. *)
Theorem reload_clears_unrecorded_latch (e : Hook.Event) (s : Session.Session)
  (parsed : LocalStorageProgress) :
  let st1 := Hook.handle (Session.duration s) e (Session.hook s) in
  skippedAhead (Session.hook s) = false ->
  skippedAhead st1 = true ->
  localStorage st1 = Some parsed ->
  isCompletedL parsed = false ->
  wasFullyWatchedRef (Session.hook (Session.step (Session.Handler e) s))
  = false.
Proof.
  intros st1 H0 H1 Hc Hn. cbn [Session.step]. unfold Session.render.
  cbn [Session.hook Session.duration]. fold st1. rewrite H0, H1.
  cbn [Bool.eqb andb]. unfold Session.startLoad. cbn [Session.hook Session.duration].
  destruct (loadProgress_local_cached (Session.duration s) st1 parsed Hc)
    as [_ L].
  cbv zeta in L. rewrite L, Hn, H1. unfold reaches.
  rewrite andb_false_r. reflexivity.
Qed.

Lemma reload_clears_unrecorded_latch_witness :
  let parsed := mkLocal (Q2Qc 50) (Q2Qc 100) [iv 0 100] 0 false in
  let s :=
    Session.run [Session.Handler (Hook.Play 1000 0)]
      (Session.mount 0 (Some parsed) (Q2Qc 100)) in
  let e := Hook.TimeUpdate 1500 (Q2Qc (1 # 4)) in
  wasFullyWatchedRef (Session.hook s) = true
  /\ wasFullyWatchedRef (Session.hook (Session.step (Session.Handler e) s))
     = false.
Proof.
  cbv zeta. split; [vm_compute; reflexivity|].
  apply (reload_clears_unrecorded_latch
           (Hook.TimeUpdate 1500 (Q2Qc (1 # 4)))
           (Session.run [Session.Handler (Hook.Play 1000 0)]
              (Session.mount 0
                 (Some (mkLocal (Q2Qc 50) (Q2Qc 100) [iv 0 100] 0 false))
                 (Q2Qc 100)))
           (mkLocal (Q2Qc 50) (Q2Qc 100) [iv 0 100] 0 false));
    vm_compute; reflexivity.
Defined.

(** ** [handlePause] and [handlePlay] *)

(** X13.  A pause that finds an open interval at least one second long
    appends [{start, t}], stops playing, drops the open interval and writes
    the cache; the record written holds the intervals, position, total and
    latch of the state the handler returns. *)
Theorem handlePause_records_and_caches (d : Qc) (now : Z) (t : Qc)
  (st : State) (current : IInterval) :
  currentIntervalRef st = Some current ->
  MINIMUM_WATCH_TIME <= t - start current ->
  let st' := Hook.handlePause d now t st in
  intervalsRef st' = intervalsRef st ++ [mkInterval (start current) t]
  /\ currentIntervalRef st' = None
  /\ isPlayingRef st' = false
  /\ localStorage st' = Some (Hook.cacheRecord now st')
  /\ calls st' = calls st ++ [SetItem (Hook.cacheRecord now st')].
Proof.
  intros Hc Hlong. cbv zeta.
  pose proof (handlePause_intervals d now t st) as I.
  destruct (handlePause_keeps d now t st) as (P & C & _).
  rewrite Hc in I. unfold pauseRecords in I.
  apply leb_le in Hlong. rewrite Hlong in I.
  split; [exact I|]. split; [exact C|]. split; [exact P|].
  unfold Hook.handlePause. cbn [currentIntervalRef set_isPlayingRef].
  rewrite Hc. cbn [start end_]. rewrite Hlong.
  match goal with
  | |- context [Hook.calculateProgress ?d ?s ?x] =>
      destruct (Hook.calculateProgress d s x) as [p st'] eqn:E
  end.
  apply calculateProgress_keeps in E as (_ & _ & O & _).
  unfold outside in O. cbn in O. injection O as O1 O2.
  unfold Hook.saveToLocalStorage, Hook.cacheRecord. cbn. rewrite O2. auto.
Qed.

Lemma handlePause_records_and_caches_witness :
  let st := Hook.handlePlay 0 (Q2Qc 10) (initialState 0) in
  let st' := Hook.handlePause (Q2Qc 100) 900 (Q2Qc 40) st in
  intervalsRef st' = intervalsRef st ++ [mkInterval (Q2Qc 10) (Q2Qc 40)]
  /\ localStorage st' = Some (Hook.cacheRecord 900 st').
Proof.
  cbv zeta.
  destruct (handlePause_records_and_caches (Q2Qc 100) 900 (Q2Qc 40)
              (Hook.handlePlay 0 (Q2Qc 10) (initialState 0))
              (mkInterval (Q2Qc 10) (Q2Qc 10)))
    as (H1 & _ & _ & H4 & _); [reflexivity | by_eval |].
  split; [exact H1 | exact H4].
Defined.

(** X14.  A pause that finds an open interval shorter than one second
    discards it: it only stops playing and drops the open interval, and
    records, computes and writes nothing.  A pause that finds no open
    interval only stops playing. *)
Theorem handlePause_discards_short (d : Qc) (now : Z) (t : Qc) (st : State) :
  (forall current,
     currentIntervalRef st = Some current ->
     t - start current < MINIMUM_WATCH_TIME ->
     Hook.handlePause d now t st
     = set_currentIntervalRef None (set_isPlayingRef false st))
  /\ (currentIntervalRef st = None ->
      Hook.handlePause d now t st = set_isPlayingRef false st).
Proof.
  split.
  - intros current Hc Hshort. unfold Hook.handlePause.
    cbn [currentIntervalRef set_isPlayingRef]. rewrite Hc. cbn [start end_].
    apply leb_gt in Hshort. rewrite Hshort. reflexivity.
  - intro Hc. unfold Hook.handlePause.
    cbn [currentIntervalRef set_isPlayingRef]. rewrite Hc. reflexivity.
Qed.

Lemma handlePause_discards_short_witness :
  let st := Hook.handlePlay 0 (Q2Qc 10) (initialState 0) in
  Hook.handlePause (Q2Qc 100) 300 (Q2Qc (21 # 2)) st
  = set_currentIntervalRef None (set_isPlayingRef false st)
  /\ Hook.handlePause (Q2Qc 100) 300 (Q2Qc 50) (initialState 0)
     = set_isPlayingRef false (initialState 0).
Proof.
  cbv zeta. split.
  - apply (proj1 (handlePause_discards_short (Q2Qc 100) 300 (Q2Qc (21 # 2)) _)
             (mkInterval (Q2Qc 10) (Q2Qc 10))); [reflexivity | by_eval].
  - apply (proj2 (handlePause_discards_short (Q2Qc 100) 300 (Q2Qc 50) _)).
    reflexivity.
Defined.

(** X15.  [handlePlay] at position 0 with a positive last position and the
    latch unset starts over: the accumulated intervals, the skip flag, the
    last position, the total and the reported progress are emptied and the
    empty record is written to the cache, before [{0, 0}] is opened.  In
    every other case [handlePlay] only marks the tracker as playing and
    opens [{t, t}]. *)
Theorem handlePlay_spec (now : Z) (t : Qc) (st : State) :
  (t = 0 -> 0 < lastKnownPositionRef st -> wasFullyWatchedRef st = false ->
   let st' := Hook.handlePlay now t st in
   intervalsRef st' = []
   /\ skippedAhead st' = false
   /\ lastKnownPositionRef st' = 0
   /\ totalWatchedRef st' = 0
   /\ localProgress st' = 0
   /\ localStorage st' = Some (emptyRecord now)
   /\ currentIntervalRef st' = Some (mkInterval 0 0)
   /\ isPlayingRef st' = true)
  /\ (t <> 0 \/ lastKnownPositionRef st <= 0 \/ wasFullyWatchedRef st = true ->
      Hook.handlePlay now t st
      = set_currentIntervalRef (Some (mkInterval t t))
          (set_isPlayingRef true st)).
Proof.
  split; [|apply handlePlay_resume].
  intros -> Hpos Hl. cbv zeta. unfold Hook.handlePlay.
  cbn [lastKnownPositionRef wasFullyWatchedRef set_isPlayingRef].
  apply ltb_lt in Hpos. rewrite Hpos, Hl.
  replace (eqb 0 0) with true by reflexivity. cbn [andb negb].
  unfold Hook.resetProgress. cbn [wasFullyWatchedRef set_isPlayingRef].
  rewrite Hl. unfold Hook.saveToLocalStorage, Hook.cacheRecord, emptyRecord.
  cbn. rewrite Hl. repeat split.
Qed.

Lemma handlePlay_spec_witness :
  let d := Q2Qc 100 in
  let st :=
    Hook.run [(d, Hook.Play 0 0); (d, Hook.TimeUpdate 500 (Q2Qc 5));
              (d, Hook.Pause 900 (Q2Qc 30))] (initialState 0) in
  intervalsRef (Hook.handlePlay 1000 0 st) = []
  /\ Hook.handlePlay 1000 (Q2Qc 30) st
     = set_currentIntervalRef (Some (mkInterval (Q2Qc 30) (Q2Qc 30)))
         (set_isPlayingRef true st).
Proof.
  cbv zeta. split.
  - apply (proj1 (handlePlay_spec 1000 0 _)); [reflexivity | by_eval | reflexivity].
  - apply (proj2 (handlePlay_spec 1000 (Q2Qc 30) _)). left. by_eval.
Defined.

(** ** The cache and [loadProgress] *)

(** X16.  What [saveToLocalStorage] writes, [loadProgress] reads back into
    a freshly mounted hook: the accumulated intervals and the last position
    are those of the state that was saved, whenever the remote fetch fails
    or the saved latch was set.  The latch is the saved one, or is set by the
    percentage computed from the saved intervals; the skip flag of the saved
    session is not in the record and does not hold this back. *)
Theorem cache_round_trip (d : Qc) (now now' : Z) (st : State)
  (remote : option IProgress) :
  remote = None \/ wasFullyWatchedRef st = true ->
  let cache := localStorage (Hook.saveToLocalStorage now st) in
  let st' :=
    Hook.loadProgress d remote (set_localStorage cache (initialState now')) in
  intervalsRef st' = intervalsRef st
  /\ lastKnownPositionRef st' = lastKnownPositionRef st
  /\ wasFullyWatchedRef st'
     = wasFullyWatchedRef st || reaches d false (intervalsRef st).
Proof.
  intros H cache st'. subst cache st'.
  set (c := Hook.cacheRecord now st).
  set (fresh := set_localStorage (Some c) (initialState now')).
  change (localStorage (Hook.saveToLocalStorage now st)) with (Some c).
  fold fresh.
  destruct (loadProgress_local_cached d fresh c eq_refl) as [[S1 S2] L].
  change (skippedAhead fresh) with false in L.
  change (isCompletedL c) with (wasFullyWatchedRef st) in L.
  change (intervals c) with (intervalsRef st) in *.
  change (lastPosition c) with (lastKnownPositionRef st) in S2.
  unfold Hook.loadProgress.
  change (localStorage fresh) with (Some c).
  change (skippedAhead fresh) with false.
  destruct remote as [r|].
  - destruct H as [H | H]; [discriminate|].
    assert (Hu : Hook.useServerData (Some c) r (Hook.loadProgress_local d fresh)
                 = false).
    { unfold Hook.useServerData. rewrite L, H. reflexivity. }
    destruct (loadProgress_resolved_keep d false (Some c) r _ Hu)
      as (K1 & K2 & K3).
    rewrite K1, K2, K3. auto.
  - unfold Hook.loadProgress_rejected. cbn. auto.
Qed.

Lemma cache_round_trip_witness :
  let d := Q2Qc 100 in
  let st :=
    Hook.run [(d, Hook.Play 0 0); (d, Hook.TimeUpdate 500 (Q2Qc 5));
              (d, Hook.Pause 900 (Q2Qc 30))] (initialState 0) in
  let cache := localStorage (Hook.saveToLocalStorage 1000 st) in
  let st' :=
    Hook.loadProgress d None (set_localStorage cache (initialState 2000)) in
  intervalsRef st' = intervalsRef st
  /\ lastKnownPositionRef st' = lastKnownPositionRef st.
Proof.
  cbv zeta.
  destruct (cache_round_trip (Q2Qc 100) 1000 2000
              (Hook.run [(Q2Qc 100, Hook.Play 0 0);
                         (Q2Qc 100, Hook.TimeUpdate 500 (Q2Qc 5));
                         (Q2Qc 100, Hook.Pause 900 (Q2Qc 30))] (initialState 0))
              None)
    as (H1 & H2 & _); [left; reflexivity|].
  split; [exact H1 | exact H2].
Defined.

(** X17.  [loadProgress] always ends loading when the cache is empty or
    holds an item that parses to a record of the cache layout: whether the
    remote fetch succeeds or fails, it makes the one call of [getProgress],
    does not write the cache, and leaves the hook initialised and not
    loading, with the error set exactly when the fetch failed.  An item that
    does not parse to such a record is outside the state of the hook as it
    is modelled. *)
Theorem loadProgress_finishes (d : Qc) (remote : option IProgress)
  (st : State) :
  let st' := Hook.loadProgress d remote st in
  isLoading st' = false
  /\ isInitialized st' = true
  /\ error st' = match remote with
                 | Some _ => None
                 | None => Some Msg.loadServer
                 end
  /\ calls st' = calls st ++ [Get]
  /\ localStorage st' = localStorage st.
Proof.
  unfold Hook.loadProgress. cbv zeta.
  destruct (loadProgress_local_outside d st) as [O1 O2].
  destruct remote as [r|].
  - destruct (loadProgress_resolved_flags d (skippedAhead st) (localStorage st)
                r (Hook.loadProgress_local d st))
      as (F1 & F2 & F3 & O3 & O4).
    rewrite F1, F2, F3, O3, O4. auto.
  - unfold Hook.loadProgress_rejected.
    cbn [calls localStorage isLoading isInitialized error set_error
         set_isLoading set_isInitialized].
    auto.
Qed.

(** ** The socket of [services/api.ts] *)

(** X18.  Whatever calls of [initializeSocket], [disconnectSocket] and
    [emitProgressUpdate] are made, at most one socket is connected at the
    end, the module variable [socket] names it, and every emission went to a
    socket that was connected when it was made. *)
Theorem socket_is_singleton (ops : list Api.Op) :
  let n := Api.run ops Api.initialNet in
  Api.live (Api.wire n) []
  = match Api.socket n with Some s => [s] | None => [] end
  /\ Api.emitsOnLive (Api.wire n) [] = true.
Proof.
  apply (ApiFacts.run_sound ops Api.initialNet). split; reflexivity.
Qed.

(** ** The video list of [App.tsx] *)

(** X19.  When the hook reports 100 for a current video that is in the list
    and not marked completed, and the stored progress of that video is
    absent or below 95, the report is discarded whatever completion flag
    comes with it: the video is shown at 0 and not completed, 0 is stored,
    and the same report made again is discarded again. *)
Theorem reportProgress_rejects_jump (d : Qc) (hook : State)
  (st : App.AppState) (v : App.Video) :
  0 < d ->
  localProgress hook = HUNDRED ->
  find (fun x => String.eqb (App.id x) (App.id (App.currentVideo st)))
       (App.videos st) = Some v ->
  App.isCompleted v = false ->
  (forall s, App.stored st (App.id (App.currentVideo st)) = Some s ->
             App.s_progress s < Q2Qc 95) ->
  let videoId := App.id (App.currentVideo st) in
  let st' := App.reportProgress d hook st in
  (forall x, In x (App.videos st') -> App.id x = videoId ->
             App.progress x = 0 /\ App.isCompleted x = false)
  /\ App.progress (App.currentVideo st') = 0
  /\ App.isCompleted (App.currentVideo st') = false
  /\ App.stored st' videoId = Some (App.mkSaved 0 false)
  /\ App.artificial videoId HUNDRED st' = true.
Proof.
  intros Hd Hp Hf Hc Hs videoId st'. subst st'.
  unfold App.reportProgress. apply ltb_lt in Hd. rewrite Hd, Hp.
  fold videoId in Hf, Hs |- *.
  assert (Ha : App.artificial videoId HUNDRED st = true).
  { unfold App.artificial. rewrite Hf, Hc.
    replace (eqb HUNDRED HUNDRED) with true by reflexivity. cbn.
    destruct (App.stored st videoId) as [s|] eqn:E; [|reflexivity].
    apply ltb_lt, Hs. reflexivity. }
  unfold App.handleVideoProgress. rewrite Ha.
  split; [|split; [|split; [|split]]].
  - intros x Hin Hid. apply (AppFacts.write_shows videoId 0 false st x Hin Hid).
  - unfold App.write. cbn. fold videoId. rewrite String.eqb_refl. reflexivity.
  - unfold App.write. cbn. fold videoId. rewrite String.eqb_refl. reflexivity.
  - apply AppFacts.write_stored.
  - unfold App.artificial.
    rewrite (AppFacts.write_find videoId 0 false st v Hf).
    rewrite (proj1 (AppFacts.write_stored videoId 0 false st)).
    reflexivity.
Qed.

Lemma reportProgress_rejects_jump_witness :
  let hook := set_isCompleted true (set_localProgress HUNDRED (initialState 0)) in
  let st' := App.reportProgress (Q2Qc 100) hook App.initialApp in
  App.progress (App.currentVideo st') = 0
  /\ App.isCompleted (App.currentVideo st') = false
  /\ App.stored st' (App.id (App.currentVideo App.initialApp))
     = Some (App.mkSaved 0 false).
Proof.
  cbv zeta.
  destruct (reportProgress_rejects_jump (Q2Qc 100)
              (set_isCompleted true (set_localProgress HUNDRED (initialState 0)))
              App.initialApp (App.currentVideo App.initialApp))
    as (_ & H2 & H3 & H4 & _);
    [reflexivity | reflexivity | reflexivity | reflexivity | discriminate |].
  split; [exact H2|]. split; [exact H3 | exact H4].
Defined.

(** X20.  [handleVideoProgress] touches one video: the list keeps its
    length, order and ids, every video with another id stays as it is in its
    place, and the stored items of the other videos stay as they are. *)
Theorem handleVideoProgress_frame (videoId : String.string) (p : Qc) (c : bool)
  (st : App.AppState) :
  let st' := App.handleVideoProgress videoId p c st in
  map App.id (App.videos st') = map App.id (App.videos st)
  /\ (forall i v, nth_error (App.videos st) i = Some v ->
                  App.id v <> videoId ->
                  nth_error (App.videos st') i = Some v)
  /\ (forall key, key <> videoId -> App.stored st' key = App.stored st key).
Proof.
  cbv zeta. unfold App.handleVideoProgress.
  destruct (App.artificial videoId p st);
    (split; [apply AppFacts.write_ids |
     split; [intros i v; apply AppFacts.write_others |
             apply AppFacts.write_stored]]).
Qed.

Lemma handleVideoProgress_frame_witness :
  let videoId := App.id (App.currentVideo App.initialApp) in
  let st' := App.handleVideoProgress videoId (Q2Qc 40) false App.initialApp in
  nth_error (App.videos st') 1 = nth_error App.DEMO_VIDEOS 1
  /\ App.stored st' (App.id (nth 1 App.DEMO_VIDEOS (App.currentVideo App.initialApp)))
     = None.
Proof.
  cbv zeta.
  destruct (handleVideoProgress_frame (App.id (App.currentVideo App.initialApp))
              (Q2Qc 40) false App.initialApp) as (_ & H2 & H3).
  split.
  - apply (H2 1%nat (nth 1 App.DEMO_VIDEOS (App.currentVideo App.initialApp)));
      [reflexivity | apply String.eqb_neq; reflexivity].
  - rewrite H3; [reflexivity | apply String.eqb_neq; reflexivity].
Defined.

(** X21.  After [handleVideoProgress] the stored item of the video agrees
    with the list: every video of that id shows the progress and the
    completion flag that were stored. *)
Theorem handleVideoProgress_stored_agrees (videoId : String.string) (p : Qc)
  (c : bool) (st : App.AppState) (v : App.Video) :
  In v (App.videos (App.handleVideoProgress videoId p c st)) ->
  App.id v = videoId ->
  App.stored (App.handleVideoProgress videoId p c st) videoId
  = Some (App.mkSaved (App.progress v) (App.isCompleted v)).
Proof.
  unfold App.handleVideoProgress.
  destruct (App.artificial videoId p st); intros Hin Hid;
    destruct (AppFacts.write_shows _ _ _ _ _ Hin Hid) as [-> ->];
    apply AppFacts.write_stored.
Qed.

Lemma handleVideoProgress_stored_agrees_witness :
  let videoId := App.id (App.currentVideo App.initialApp) in
  let st' := App.handleVideoProgress videoId (Q2Qc 40) false App.initialApp in
  App.stored st' videoId = Some (App.mkSaved (Q2Qc 40) false).
Proof.
  cbv zeta.
  apply (handleVideoProgress_stored_agrees
           (App.id (App.currentVideo App.initialApp)) (Q2Qc 40) false
           App.initialApp
           (App.withProgress (Q2Qc 40) false (App.currentVideo App.initialApp))).
  - left. reflexivity.
  - reflexivity.
Defined.

(** X22.  A report is taken as it is when it is not 100, when the video is
    already marked completed, or when the stored progress is at least 95:
    the video then shows the reported progress and flag, and they are
    stored. *)
Theorem handleVideoProgress_accepts (videoId : String.string) (p : Qc)
  (c : bool) (st : App.AppState) (v : App.Video) :
  find (fun x => String.eqb (App.id x) videoId) (App.videos st) = Some v ->
  p <> HUNDRED \/ App.isCompleted v = true
  \/ (exists s, App.stored st videoId = Some s /\ Q2Qc 95 <= App.s_progress s) ->
  let st' := App.handleVideoProgress videoId p c st in
  (forall x, In x (App.videos st') -> App.id x = videoId ->
             App.progress x = p /\ App.isCompleted x = c)
  /\ App.stored st' videoId = Some (App.mkSaved p c).
Proof.
  intros Hf H. cbv zeta. unfold App.handleVideoProgress.
  assert (Ha : App.artificial videoId p st = false).
  { unfold App.artificial. rewrite Hf.
    destruct H as [H | [H | (s & E & H)]].
    - apply eqb_neq in H. rewrite H. reflexivity.
    - rewrite H. cbn. rewrite andb_false_r. reflexivity.
    - rewrite E. apply ltb_ge in H. rewrite H. apply andb_false_r. }
  rewrite Ha. split.
  - intros x Hin Hid. apply (AppFacts.write_shows videoId p c st x Hin Hid).
  - apply AppFacts.write_stored.
Qed.

Lemma handleVideoProgress_accepts_witness :
  let videoId := App.id (App.currentVideo App.initialApp) in
  let st' := App.handleVideoProgress videoId (Q2Qc 40) false App.initialApp in
  App.stored st' videoId = Some (App.mkSaved (Q2Qc 40) false).
Proof.
  cbv zeta.
  destruct (handleVideoProgress_accepts
              (App.id (App.currentVideo App.initialApp)) (Q2Qc 40) false
              App.initialApp (App.currentVideo App.initialApp))
    as (_ & H); [reflexivity | left; by_eval | exact H].
Defined.

(** ** [formatDuration] and [formatTime] *)

(** X23.  For a number of seconds that is not negative, the text is the
    whole minutes, a colon, and the remaining whole seconds on exactly two
    digits; the remaining seconds are below 60, and minutes and seconds
    together are the number of seconds rounded down. *)
Theorem formatDuration_spec (seconds : Qc) :
  0 <= seconds ->
  let m := Format.minutes seconds in
  let r := Format.remainingSeconds seconds in
  (0 <= m)%Z
  /\ (0 <= r < 60)%Z
  /\ (60 * m + r = Qfloor seconds)%Z
  /\ Format.formatDuration seconds
     = String.append (Format.toString m)
         (String.append Format.colon (Format.twoDigits r)).
Proof.
  intros H m r.
  destruct (FormatFacts.minutes_bounds seconds H) as (_ & _ & M).
  destruct (FormatFacts.remainingSeconds_spec seconds H) as [R E].
  split; [exact M|]. split; [exact R|]. split; [exact E|].
  unfold Format.formatDuration. fold m r.
  rewrite (FormatFacts.padStart2_twoDigits r R). reflexivity.
Qed.

Lemma formatDuration_spec_witness :
  (60 * Format.minutes (Q2Qc (1193 # 2))
   + Format.remainingSeconds (Q2Qc (1193 # 2)) = 596)%Z
  /\ Format.formatDuration (Q2Qc (1193 # 2)) = Format.text_9_56.
Proof.
  destruct (formatDuration_spec (Q2Qc (1193 # 2))) as (_ & _ & E & F);
    [discriminate|].
  split; [exact E|]. rewrite F. vm_compute. reflexivity.
Defined.
